(** * Shallow embedding of the Spotify client, playlist manager and
    discovery generator of the sonic bot.

    Sources: src/src/spotify_client.rs, src/src/playlist_manager.rs,
    src/src/discovery_generator.rs, src/src/error.rs, src/src/models.rs.

    Conventions:
    - Rust [u64] values are [Z]; arithmetic that can leave the [u64] range is
      written with [wrap64], i.e. the wrapping semantics of a release build.
    - Rust [u32] attempt counters and [usize] sizes are [nat].
    - The asynchronous client methods are functions in explicit state
      passing: they take the client (or the remote server) state and return
      a result together with the new state.  Every HTTP request and every
      [sleep] is recorded in an event log, so that claims about the number
      of requests and the delays can be read off the log.
    - [rand] draws are parameters (oracles) of the functions that use them. *)

From Stdlib Require Import ZArith List String Ascii Bool Lia Arith.
From Stdlib Require Import Permutation.
Import ListNotations.

Open Scope string_scope.
Open Scope Z_scope.

(** ** Shared types *)

(** Rust's [Result<T, E>]. *)
Inductive result (A E : Type) : Type :=
| Ok (a : A)
| Err (e : E).
Arguments Ok {A E} a.
Arguments Err {A E} e.

(** [SpotifyError] of src/src/error.rs. *)
Inductive SpotifyError : Type :=
| AuthenticationFailed (msg : string)
| TokenExpired
| TokenRefreshFailed (msg : string)
| ApiRequestFailed (status : Z) (message : string)
| RateLimitExceeded (retry_after_ms : Z)
| TrackNotFound (track_id : string)
| PlaylistNotFound (playlist_id : string)
| PlaylistAccessDenied (playlist_id : string)
| InvalidTrackUri (uri : string)
| NetworkError (msg : string)
| JsonParsingError (msg : string).

(** [PlaylistError] of src/src/error.rs. *)
Inductive PlaylistError : Type :=
| AddTrackFailed (msg : string)
| RemoveTrackFailed (msg : string)
| RetrieveTracksFailed (msg : string)
| TrackAlreadyExists (track_uri : string)
| PlaylistFull
| ReplaceTracksFailed (msg : string).

(** [DiscoveryError] of src/src/error.rs. *)
Inductive DiscoveryError : Type :=
| RecommendationGenerationFailed (msg : string)
| InsufficientSeedTracks (count : nat) (required : nat)
| SeedSelectionFailed (msg : string)
| PlaylistCreationFailed (msg : string).

(** The fields of [BotConfig] (src/src/models.rs) read by the modelled code. *)
Record BotConfig : Type := mkConfig {
  collaborative_playlist_id : string;
  discovery_playlist_id : string;
  max_retry_attempts : nat;      (* u32 *)
  retry_base_delay_ms : Z;       (* u64 *)
  retry_max_delay_ms : Z         (* u64 *)
}.

(** [TrackInfo] of src/src/models.rs. *)
Record TrackInfo : Type := mkTrack {
  id : string;
  uri : string;
  name : string;
  artists : list string;
  album : string;
  duration_ms : Z;
  external_urls : list (string * string);
  popularity : option Z;
  preview_url : option string;
  explicit : bool
}.

(** [AddTrackResult] of src/src/models.rs. *)
Inductive AddTrackResult : Type :=
| Added (t : TrackInfo)
| AlreadyExists (t : TrackInfo)
| Failed (msg : string).

Definition u64_modulus : Z := 2 ^ 64.

(** Wrapping [u64] arithmetic (release build). *)
Definition wrap64 (x : Z) : Z := x mod u64_modulus.

Definition unwrap_or {A} (o : option A) (d : A) : A :=
  match o with Some a => a | None => d end.

Definition and_then {A B} (o : option A) (f : A -> option B) : option B :=
  match o with Some a => f a | None => None end.

(** [str::contains]. *)
Fixpoint contains (s sub : string) : bool :=
  prefix sub s ||
  match s with
  | EmptyString => false
  | String _ s' => contains s' sub
  end.

(** * The resilient client: response classification, retry and backoff *)
Module Client.

(** ** HTTP requests and responses *)

Inductive Method : Type := GET | POST | PUT.

Record Request : Type := mkRequest {
  method : Method;
  endpoint : string;
  req_uris : list string     (* the ["uris"] of the JSON body, if any *)
}.

(** A received response: status, the raw [retry-after] header if present,
    the body text, and whether the body is valid JSON. *)
Record Response : Type := mkResponse {
  status : Z;
  retry_after_header : option string;
  body : string;
  body_is_json : bool
}.

(** What the client does, in order. *)
Inductive Event : Type :=
| Send (r : Request) (attempt : nat)   (* one HTTP attempt *)
| Sleep (ms : Z)                       (* tokio::time::sleep *)
| RefreshToken.                        (* POST to the token endpoint *)

(** The state of a [SpotifyClient] that the retry code reads or writes. *)
Record ClientState : Type := mkClient {
  access_token : option string;
  token_needs_refresh : bool;     (* the value of [needs_token_refresh] *)
  events : list Event
}.

Definition log_event (e : Event) (c : ClientState) : ClientState :=
  mkClient (access_token c) (token_needs_refresh c) (events c ++ [e])%list.

(** ** Parsing the [Retry-After] header *)

(** [HeaderValue::to_str] succeeds iff every byte is visible ASCII or tab. *)
Definition is_visible_ascii (ch : ascii) : bool :=
  let n := nat_of_ascii ch in
  ((32 <=? n)%nat && (n <? 127)%nat) || (n =? 9)%nat.

Fixpoint all_visible (s : string) : bool :=
  match s with
  | EmptyString => true
  | String ch s' => is_visible_ascii ch && all_visible s'
  end.

Definition header_to_str (h : string) : option string :=
  if all_visible h then Some h else None.

(** [HeaderValue::from_str] accepts a byte [b] iff
    [b >= 32 && b != 127 || b == b'\t'] (bytes of 128 and above included). *)
Definition is_valid_header_byte (ch : ascii) : bool :=
  let n := nat_of_ascii ch in
  ((32 <=? n)%nat && negb (n =? 127)%nat) || (n =? 9)%nat.

Fixpoint header_value_ok (s : string) : bool :=
  match s with
  | EmptyString => true
  | String ch s' => is_valid_header_byte ch && header_value_ok s'
  end.

Definition digit_value (ch : ascii) : option Z :=
  let n := nat_of_ascii ch in
  if ((48 <=? n)%nat && (n <=? 57)%nat) then Some (Z.of_nat n - 48) else None.

Fixpoint parse_digits (s : string) (acc : Z) : option Z :=
  match s with
  | EmptyString => Some acc
  | String ch s' =>
      match digit_value ch with
      | Some d => parse_digits s' (acc * 10 + d)
      | None => None
      end
  end.

(** [str::parse::<u64>]: an optional leading ['+'], then a non-empty run of
    decimal digits whose value fits in [u64]. *)
Definition parse_u64 (s : string) : option Z :=
  let digits :=
    match s with
    | String "+"%char rest => rest
    | _ => s
    end in
  match digits with
  | EmptyString => None
  | _ =>
      match parse_digits digits 0 with
      | Some v => if v <? u64_modulus then Some v else None
      | None => None
      end
  end.

(** Lines 262-266 of spotify_client.rs:
    [.get("retry-after").and_then(to_str).and_then(parse::<u64>).unwrap_or(1) * 1000]. *)
Definition retry_after_ms_of (header : option string) : Z :=
  wrap64 (unwrap_or (and_then (and_then header header_to_str) parse_u64) 1 * 1000).

(** ** [handle_response] *)
Definition handle_response (r : Response) : result string SpotifyError :=
  let st := status r in
  if (st =? 200) || (st =? 201) then
    if body_is_json r then Ok (body r) else Err (JsonParsingError "invalid JSON body")
  else if st =? 401 then Err TokenExpired
  else if st =? 429 then Err (RateLimitExceeded (retry_after_ms_of (retry_after_header r)))
  else if st =? 404 then
    let error_text := body r in
    if contains error_text "track" then Err (TrackNotFound "unknown")
    else if contains error_text "playlist" then Err (PlaylistNotFound "unknown")
    else Err (ApiRequestFailed st
                (match error_text with
                 | EmptyString => "404 Not Found - endpoint may not exist or resource not found"
                 | _ => error_text
                 end))
  else if st =? 403 then
    let error_text := body r in
    if contains error_text "playlist" then Err (PlaylistAccessDenied "unknown")
    else Err (ApiRequestFailed st error_text)
  else Err (ApiRequestFailed st (body r)).

(** ** [calculate_backoff_delay] *)

Definition exponential_delay (cfg : BotConfig) (attempt : nat) : Z :=
  wrap64 (retry_base_delay_ms cfg * wrap64 (2 ^ Z.of_nat (attempt - 1))).

Definition delay_with_cap (cfg : BotConfig) (attempt : nat) : Z :=
  Z.min (exponential_delay cfg attempt) (retry_max_delay_ms cfg).


(** [jitter] is the value drawn by [gen_range]. *)
Definition calculate_backoff_delay (cfg : BotConfig) (attempt : nat) (jitter : Z) : Z :=
  let capped := delay_with_cap cfg attempt in
  let jitter_range := capped / 4 in
  let final_delay := wrap64 (Z.max 0 (capped - jitter_range) + jitter) in
  Z.max final_delay 100.

(** ** The token endpoint *)

(** The body of a 2xx answer of the token endpoint: not JSON (with the
    [serde_json] error text), or a JSON value, of which the code reads
    [body["access_token"].as_str()] and [body["expires_in"].as_u64()]. *)
Inductive TokenBody : Type :=
| BodyNotJson (msg : string)
| BodyJson (json_access_token : option string) (json_expires_in : option Z).

(** What the POST to [https://accounts.spotify.com/api/token] gives:
    a failure of [send()] (with its text), or a status, the body text and
    the body. *)
Inductive TokenReply : Type :=
| TokenSendFailure (msg : string)
| TokenResponse (st : Z) (text : string) (json : TokenBody).

Definition TOKEN_REFRESH_BUFFER_SECONDS : Z := 300.

(** [StatusCode::is_success]. *)
Definition is_success (st : Z) : bool := (200 <=? st) && (st <? 300).

(** Decimal rendering of a non-negative number ([{}] of a [u16]). *)
Fixpoint decimal_digits (fuel : nat) (n : Z) (acc : string) : string :=
  match fuel with
  | O => acc
  | S fuel' =>
      let acc := String (ascii_of_nat (48 + Z.to_nat (n mod 10))) acc in
      if n <? 10 then acc else decimal_digits fuel' (n / 10) acc
  end.

Definition show_status (st : Z) : string := decimal_digits 5 st "".

(** Number of token refreshes in a stretch of the log. *)
Fixpoint refresh_count (l : list Event) : nat :=
  match l with
  | [] => O
  | RefreshToken :: l' => S (refresh_count l')
  | _ :: l' => refresh_count l'
  end.

Section Loop.

Variable cfg : BotConfig.
(** The server: the response to attempt [k] of request [r]; [None] is a
    transport failure of [send()]. *)
Variable server : Request -> nat -> option Response.
(** The [gen_range] draw made after attempt [k]. *)
Variable jitter : nat -> Z.
(** The token endpoint: its reply to the [k]-th refresh of the log
    (counting from 0). *)
Variable token_endpoint : nat -> TokenReply.

(** [refresh_access_token]: one POST to the token endpoint.  The
    [refresh_token] field is [Some] from [new] on and never cleared, so the
    ["No refresh token available"] branch is not reachable.  On success the
    returned token is stored and [token_needs_refresh] becomes the answer of
    [needs_token_refresh] right after the refresh: [now + 300 >= now +
    expires_in].  The addition [SystemTime::now() + from_secs(expires_in)]
    panics for an [expires_in] above [i64::MAX] minus the current Unix time;
    that panic is outside this model. *)
Definition refresh_access_token (c : ClientState) : result unit SpotifyError * ClientState :=
  let k := refresh_count (events c) in
  let c := log_event RefreshToken c in
  match token_endpoint k with
  | TokenSendFailure msg => (Err (NetworkError msg), c)
  | TokenResponse st text json =>
      if negb (is_success st) then
        (Err (TokenRefreshFailed ("HTTP " ++ show_status st ++ ": " ++ text)), c)
      else
        match json with
        | BodyNotJson msg => (Err (JsonParsingError msg), c)
        | BodyJson None _ => (Err (TokenRefreshFailed "No access token in response"), c)
        | BodyJson (Some new_token) expires =>
            let expires_in := unwrap_or expires 3600 in
            (Ok tt, mkClient (Some new_token) (expires_in <=? TOKEN_REFRESH_BUFFER_SECONDS)
                      (events c))
        end
  end.

(** [ensure_valid_token]. *)
Definition ensure_valid_token (c : ClientState) : result unit SpotifyError * ClientState :=
  if token_needs_refresh c then refresh_access_token c else (Ok tt, c).

(** [build_headers]: fails when there is no access token, and when
    [HeaderValue::from_str(&format!("Bearer {}", access_token))] refuses the
    token ([InvalidHeaderValue] displays as "failed to parse header value"). *)
Definition build_headers (c : ClientState) : result unit SpotifyError :=
  match access_token c with
  | None => Err (AuthenticationFailed "No access token available")
  | Some tok =>
      if header_value_ok ("Bearer " ++ tok) then Ok tt
      else Err (AuthenticationFailed "Invalid token format: failed to parse header value")
  end.

(** [should_retry_error]: note the [sleep] of the rate-limit case. *)
Definition should_retry_error (error : SpotifyError) (c : ClientState)
  : result bool SpotifyError * ClientState :=
  match error with
  | RateLimitExceeded ms => (Ok true, log_event (Sleep ms) c)
  | NetworkError _ => (Ok true, c)
  | ApiRequestFailed st _ => (Ok ((500 <=? st) || (st =? 429) || (st =? 408)), c)
  | TokenExpired =>
      match refresh_access_token c with
      | (Ok _, c') => (Ok true, c')
      | (Err e, c') => (Err e, c')
      end
  | _ => (Ok false, c)
  end.

(** The [loop] shared by [make_get_request], [make_post_request] and
    [replace_playlist_tracks] (they differ only in the HTTP method).
    [attempt] is the value of the counter before [attempt += 1];
    [fuel] only makes the recursion structural, the callers give
    [S max_retry_attempts], which the loop never exhausts. *)
Fixpoint request_loop (fuel : nat) (r : Request) (attempt : nat) (c : ClientState)
  : result string SpotifyError * ClientState :=
  match fuel with
  | O => (Err (NetworkError "out of fuel"), c)
  | S fuel' =>
      let attempt := S attempt in
      match build_headers c with
      | Err e => (Err e, c)
      | Ok _ =>
          let c := log_event (Send r attempt) c in
          match server r attempt with
          | None => (Err (NetworkError "transport failure"), c)
          | Some resp =>
              match handle_response resp with
              | Ok v => (Ok v, c)
              | Err error =>
                  if (max_retry_attempts cfg <=? attempt)%nat then (Err error, c)
                  else
                    match should_retry_error error c with
                    | (Err e, c') => (Err e, c')
                    | (Ok false, c') => (Err error, c')
                    | (Ok true, c') =>
                        let delay_ms := calculate_backoff_delay cfg attempt (jitter attempt) in
                        request_loop fuel' r attempt (log_event (Sleep delay_ms) c')
                    end
              end
          end
      end
  end.

(** [make_get_request] / [make_post_request] / the PUT loop. *)
Definition send_with_retry (r : Request) (c : ClientState)
  : result string SpotifyError * ClientState :=
  match ensure_valid_token c with
  | (Err e, c') => (Err e, c')
  | (Ok _, c') => request_loop (S (max_retry_attempts cfg)) r 0 c'
  end.

Definition make_get_request (ep : string) (c : ClientState) :=
  send_with_retry (mkRequest GET ep []) c.

Definition API_URL : string := "https://api.spotify.com/v1".

Definition tracks_endpoint (playlist_id : string) : string :=
  API_URL ++ "/playlists/" ++ playlist_id ++ "/tracks".

(** [replace_playlist_tracks]. *)
Definition replace_playlist_tracks (playlist_id : string) (track_uris : list string)
    (c : ClientState) : result unit SpotifyError * ClientState :=
  match track_uris with
  | [] => (Err (ApiRequestFailed 400 "At least one track URI is required"), c)
  | _ =>
      match send_with_retry (mkRequest PUT (tracks_endpoint playlist_id) track_uris) c with
      | (Ok _, c') => (Ok tt, c')
      | (Err e, c') => (Err e, c')
      end
  end.

(** [format!("{:?}", e)]; the derived [Debug] text is not modelled. *)
Variable debug_fmt : SpotifyError -> string.

(** [PlaylistManager::replace_discovery_playlist]. *)
Definition replace_discovery_playlist (track_uris : list string) (c : ClientState)
  : result unit PlaylistError * ClientState :=
  match track_uris with
  | [] => (Err (ReplaceTracksFailed "Cannot replace playlist with empty track list"), c)
  | _ =>
      match replace_playlist_tracks (discovery_playlist_id cfg) track_uris c with
      | (Ok _, c') => (Ok tt, c')
      | (Err e, c') =>
          (Err (ReplaceTracksFailed ("Failed to replace discovery playlist tracks: " ++ debug_fmt e)), c')
      end
  end.

End Loop.

(** Total time slept in a stretch of the log. *)
Fixpoint total_sleep (l : list Event) : Z :=
  match l with
  | [] => 0
  | Sleep ms :: l' => ms + total_sleep l'
  | _ :: l' => total_sleep l'
  end.

(** Number of HTTP attempts in a stretch of the log. *)
Fixpoint send_count (l : list Event) : nat :=
  match l with
  | [] => O
  | Send _ _ :: l' => S (send_count l')
  | _ :: l' => send_count l'
  end.

(** [c'] is [c] with more events appended. *)
Definition extends (c c' : ClientState) : Prop :=
  exists rest, events c' = (events c ++ rest)%list.

End Client.

(** * The playlist store: paging, duplicate check and append

    Here the HTTP layer of [Client] is abstracted: each API call is answered
    by a modelled server, which stands for [make_get_request] /
    [make_post_request] after their retries.  The server state holds the
    catalog, the playlists and the failures it injects, and logs every call
    the client makes. *)
Module Store.

(** One entry of a playlist-tracks page: the [track.uri] field when it is a
    string, and the track when [parse_track_info] succeeds on it. *)
Record PlaylistItem : Type := mkItem {
  item_uri : option string;
  item_track : option TrackInfo
}.

Inductive ApiCall : Type :=
| GetTrack (track_id : string)                          (* GET /tracks/{id} *)
| GetPage (playlist_id : string) (offset limit : nat)   (* GET /playlists/{id}/tracks *)
| PostTracks (playlist_id : string) (uris : list string). (* POST /playlists/{id}/tracks *)

Record Server : Type := mkServer {
  catalog : list TrackInfo;
  playlists : string -> list PlaylistItem;
  missing_track_error : SpotifyError;       (* error of GET /tracks/{id} for an unknown id *)
  page_failure : option SpotifyError;       (* when set, every page GET fails with it *)
  post_failure : option SpotifyError;       (* when set, the add POST fails with it *)
  calls : list ApiCall
}.

Definition log_call (a : ApiCall) (s : Server) : Server :=
  mkServer (catalog s) (playlists s) (missing_track_error s) (page_failure s)
    (post_failure s) (calls s ++ [a])%list.

Definition find_track (track_id : string) (cat : list TrackInfo) : option TrackInfo :=
  find (fun t => String.eqb (id t) track_id) cat.

Definition find_track_by_uri (u : string) (cat : list TrackInfo) : option TrackInfo :=
  find (fun t => String.eqb (uri t) u) cat.

Fixpoint lookup_uris (us : list string) (cat : list TrackInfo) : option (list TrackInfo) :=
  match us with
  | [] => Some []
  | u :: us' =>
      match find_track_by_uri u cat, lookup_uris us' cat with
      | Some t, Some ts => Some (t :: ts)
      | _, _ => None
      end
  end.

Definition api_get_track (track_id : string) (s : Server) : result TrackInfo SpotifyError * Server :=
  let s := log_call (GetTrack track_id) s in
  match find_track track_id (catalog s) with
  | Some t => (Ok t, s)
  | None => (Err (missing_track_error s), s)
  end.

Definition api_get_page (pl : string) (offset limit : nat) (s : Server)
  : result (list PlaylistItem) SpotifyError * Server :=
  let s := log_call (GetPage pl offset limit) s in
  match page_failure s with
  | Some e => (Err e, s)
  | None => (Ok (firstn limit (skipn offset (playlists s pl))), s)
  end.

Definition api_post_tracks (pl : string) (us : list string) (s : Server)
  : result unit SpotifyError * Server :=
  let s := log_call (PostTracks pl us) s in
  match post_failure s with
  | Some e => (Err e, s)
  | None =>
      match lookup_uris us (catalog s) with
      | None => (Err (ApiRequestFailed 400 "Invalid track uri"), s)
      | Some ts =>
          let added := map (fun t => mkItem (Some (uri t)) (Some t)) ts in
          (Ok tt,
           mkServer (catalog s)
             (fun p => if String.eqb p pl then (playlists s p ++ added)%list else playlists s p)
             (missing_track_error s) (page_failure s) (post_failure s) (calls s))
      end
  end.

Definition PAGE_LIMIT : nat := 100.

Definition item_has_uri (u : string) (it : PlaylistItem) : bool :=
  match item_uri it with Some x => String.eqb x u | None => false end.

(** The loop of [check_track_exists_in_playlist].  The fuel only makes the
    recursion structural; the caller gives one more page than the playlist
    can fill. *)
Fixpoint check_loop (fuel : nat) (pl u : string) (offset : nat) (s : Server)
  : result bool SpotifyError * Server :=
  match fuel with
  | O => (Ok false, s)
  | S f =>
      match api_get_page pl offset PAGE_LIMIT s with
      | (Err e, s') => (Err e, s')
      | (Ok items, s') =>
          if existsb (item_has_uri u) items then (Ok true, s')
          else if (List.length items <? PAGE_LIMIT)%nat then (Ok false, s')
          else check_loop f pl u (offset + PAGE_LIMIT)%nat s'
      end
  end.

Definition check_track_exists_in_playlist (pl u : string) (s : Server) :=
  check_loop (S (List.length (playlists s pl))) pl u 0 s.

Definition item_tracks (items : list PlaylistItem) : list TrackInfo :=
  flat_map (fun it => match item_track it with Some t => [t] | None => [] end) items.

(** The loop of [get_playlist_tracks]. *)
Fixpoint tracks_loop (fuel : nat) (pl : string) (offset : nat) (acc : list TrackInfo)
    (s : Server) : result (list TrackInfo) SpotifyError * Server :=
  match fuel with
  | O => (Ok acc, s)
  | S f =>
      match api_get_page pl offset PAGE_LIMIT s with
      | (Err e, s') => (Err e, s')
      | (Ok items, s') =>
          let acc := (acc ++ item_tracks items)%list in
          if (List.length items <? PAGE_LIMIT)%nat then (Ok acc, s')
          else tracks_loop f pl (offset + PAGE_LIMIT)%nat acc s'
      end
  end.

Definition get_playlist_tracks (pl : string) (s : Server) :=
  tracks_loop (S (List.length (playlists s pl))) pl 0 [] s.

Definition get_track_info (track_id : string) (s : Server) := api_get_track track_id s.

(** [SpotifyClient::add_track_to_playlist]. *)
Definition add_track_to_playlist (pl u : string) (s : Server) : result unit SpotifyError * Server :=
  match check_track_exists_in_playlist pl u s with
  | (Err e, s') => (Err e, s')
  | (Ok true, s') => (Err (InvalidTrackUri ("Track " ++ u ++ " already exists in playlist")), s')
  | (Ok false, s') => api_post_tracks pl [u] s'
  end.

Fixpoint strip_prefix (p s : string) : option string :=
  match p, s with
  | EmptyString, _ => Some s
  | String a p', String b s' => if Ascii.eqb a b then strip_prefix p' s' else None
  | String _ _, EmptyString => None
  end.

Definition extract_track_id_from_uri (u : string) : result string PlaylistError :=
  match strip_prefix "spotify:track:" u with
  | Some tid => Ok tid
  | None => Err (AddTrackFailed ("Invalid Spotify track URI format: " ++ u))
  end.

Section Manager.
Variable cfg : BotConfig.
(** [format!("{:?}", e)]; the derived [Debug] text is not modelled. *)
Variable debug_fmt : SpotifyError -> string.

(** [PlaylistManager::add_track_to_collaborative]. *)
Definition add_track_to_collaborative (u : string) (s : Server)
  : result AddTrackResult PlaylistError * Server :=
  match extract_track_id_from_uri u with
  | Err e => (Err e, s)
  | Ok tid =>
      match get_track_info tid s with
      | (Err e, s1) =>
          (Err (match e with
                | TrackNotFound t => AddTrackFailed ("Track not found: " ++ t)
                | _ => AddTrackFailed (debug_fmt e)
                end), s1)
      | (Ok ti, s1) =>
          match check_track_exists_in_playlist (collaborative_playlist_id cfg) u s1 with
          | (Err e, s2) =>
              (Err (AddTrackFailed ("Failed to check for duplicates: " ++ debug_fmt e)), s2)
          | (Ok true, s2) => (Ok (AlreadyExists ti), s2)
          | (Ok false, s2) =>
              match add_track_to_playlist (collaborative_playlist_id cfg) u s2 with
              | (Ok _, s3) => (Ok (Added ti), s3)
              | (Err e, s3) =>
                  (Ok (Failed ("Failed to add track '" ++ name ti ++ "': " ++ debug_fmt e)), s3)
              end
          end
      end
  end.

End Manager.

Section ManagerQueries.
Variable cfg : BotConfig.
Variable debug_fmt : SpotifyError -> string.

(** [PlaylistManager::get_collaborative_tracks]. *)
Definition get_collaborative_tracks (s : Server)
  : result (list TrackInfo) PlaylistError * Server :=
  match get_playlist_tracks (collaborative_playlist_id cfg) s with
  | (Ok ts, s') => (Ok ts, s')
  | (Err e, s') =>
      (Err (RetrieveTracksFailed
              ("Failed to retrieve tracks from collaborative playlist: " ++ debug_fmt e)), s')
  end.

(** [PlaylistManager::get_recent_collaborative_tracks]. *)
Definition get_recent_collaborative_tracks (limit : nat) (s : Server)
  : result (list TrackInfo) PlaylistError * Server :=
  match get_collaborative_tracks s with
  | (Err e, s') => (Err e, s')
  | (Ok all_tracks, s') =>
      (Ok (if (List.length all_tracks <=? limit)%nat then all_tracks
           else rev (firstn limit (rev all_tracks))), s')
  end.

(** [PlaylistManager::track_exists_in_collaborative]. *)
Definition track_exists_in_collaborative (track_id : string) (s : Server)
  : result bool PlaylistError * Server :=
  match check_track_exists_in_playlist (collaborative_playlist_id cfg)
          ("spotify:track:" ++ track_id) s with
  | (Ok b, s') => (Ok b, s')
  | (Err e, s') =>
      (Err (RetrieveTracksFailed ("Failed to check if track exists: " ++ debug_fmt e)), s')
  end.

(** [PlaylistManager::add_multiple_tracks_to_collaborative]: the [?] stops
    at the first [Err]. *)
Fixpoint add_multiple_tracks_to_collaborative (track_uris : list string) (s : Server)
  : result (list AddTrackResult) PlaylistError * Server :=
  match track_uris with
  | [] => (Ok [], s)
  | u :: us =>
      match add_track_to_collaborative cfg debug_fmt u s with
      | (Err e, s1) => (Err e, s1)
      | (Ok r, s1) =>
          match add_multiple_tracks_to_collaborative us s1 with
          | (Ok rs, s2) => (Ok (r :: rs), s2)
          | (Err e, s2) => (Err e, s2)
          end
      end
  end.

End ManagerQueries.

(** [PlaylistManager::validate_track_uri].  [starts_with(p)] holds exactly
    when [strip_prefix(p)] is [Some], so the two tests of the source are one
    [match] here and the [unwrap] cannot fail. *)
Definition validate_track_uri (track_uri : string) : result unit PlaylistError :=
  match strip_prefix "spotify:track:" track_uri with
  | None =>
      Err (AddTrackFailed ("Invalid track URI format: " ++ track_uri ++
                           ". Expected format: spotify:track:TRACK_ID"))
  | Some track_id =>
      if (String.length track_id =? 0)%nat || negb (String.length track_id =? 22)%nat then
        Err (AddTrackFailed ("Invalid track ID in URI: " ++ track_uri ++
                             ". Track ID should be 22 characters long"))
      else Ok tt
  end.

(** Number of playlist writes (POSTs) in a call log. *)
Definition write_count (l : list ApiCall) : nat :=
  List.length (filter (fun a => match a with PostTracks _ _ => true | _ => false end) l).

(** The page requests [offset, offset + 100, ...], [k] of them. *)
Fixpoint page_calls (pl : string) (offset k : nat) : list ApiCall :=
  match k with
  | O => []
  | S k' => GetPage pl offset PAGE_LIMIT :: page_calls pl (offset + PAGE_LIMIT)%nat k'
  end.

Definition add_calls (s : Server) (l : list ApiCall) : Server :=
  mkServer (catalog s) (playlists s) (missing_track_error s) (page_failure s)
    (post_failure s) (calls s ++ l)%list.

Definition well_formed_item (t : TrackInfo) : PlaylistItem := mkItem (Some (uri t)) (Some t).

End Store.

(** * Playlist statistics (src/src/models.rs) *)
Module Stats.

(** [PlaylistStats], without [last_updated] ([SystemTime::now()]) and
    [average_popularity] (an [f32]), which are not modelled. *)
Record PlaylistStats : Type := mkStats {
  total_tracks : nat;
  unique_artists : nat;
  total_duration_ms : Z;          (* u64 *)
  most_common_artist : option string;
  explicit_tracks : nat
}.

(** [*artist_counts.entry(artist.clone()).or_insert(0) += 1] on the
    [HashMap<String, usize>], kept as an association list with one entry
    per key. *)
Fixpoint bump (artist : string) (m : list (string * nat)) : list (string * nat) :=
  match m with
  | [] => [(artist, 1%nat)]
  | (k, n) :: m' => if String.eqb k artist then (k, S n) :: m' else (k, n) :: bump artist m'
  end.

(** The [for track in tracks] loop, artist part. *)
Fixpoint count_artists (tracks : list TrackInfo) (m : list (string * nat))
  : list (string * nat) :=
  match tracks with
  | [] => m
  | t :: ts => count_artists ts (fold_left (fun m a => bump a m) (artists t) m)
  end.

(** [Iterator::max_by_key]: of several maximal elements, the last one. *)
Definition max_by_key (l : list (string * nat)) : option (string * nat) :=
  fold_left (fun acc x =>
               match acc with
               | None => Some x
               | Some y => if (snd y <=? snd x)%nat then Some x else Some y
               end) l None.

(** [PlaylistStats::from_tracks]; [order] is the iteration order of the
    [HashMap], which Rust leaves unspecified. *)
Definition from_tracks (order : list (string * nat) -> list (string * nat))
  (tracks : list TrackInfo) : PlaylistStats :=
  let artist_counts := count_artists tracks [] in
  mkStats (List.length tracks)
    (List.length artist_counts)
    (wrap64 (fold_right Z.add 0 (map duration_ms tracks)))
    (option_map fst (max_by_key (order artist_counts)))
    (List.length (filter explicit tracks)).

End Stats.

(** * Playlist statistics and summary of the playlist manager
    (src/src/playlist_manager.rs) *)
Module Summary.

(** [PlaylistsSummary]. *)
Record PlaylistsSummary : Type := mkSummary {
  collaborative : Stats.PlaylistStats;
  discovery : Stats.PlaylistStats
}.

Section Queries.
Variable cfg : BotConfig.
Variable debug_fmt : SpotifyError -> string.
(** Iteration order of the [HashMap] in [PlaylistStats::from_tracks]. *)
Variable order : list (string * nat) -> list (string * nat).

(** [PlaylistManager::get_collaborative_playlist_stats]. *)
Definition get_collaborative_playlist_stats (s : Store.Server)
  : result Stats.PlaylistStats PlaylistError * Store.Server :=
  match Store.get_collaborative_tracks cfg debug_fmt s with
  | (Err e, s') => (Err e, s')
  | (Ok tracks, s') => (Ok (Stats.from_tracks order tracks), s')
  end.

(** [PlaylistManager::get_discovery_tracks]. *)
Definition get_discovery_tracks (s : Store.Server)
  : result (list TrackInfo) PlaylistError * Store.Server :=
  match Store.get_playlist_tracks (discovery_playlist_id cfg) s with
  | (Ok ts, s') => (Ok ts, s')
  | (Err e, s') =>
      (Err (RetrieveTracksFailed
              ("Failed to retrieve tracks from discovery playlist: " ++ debug_fmt e)), s')
  end.

(** [PlaylistManager::get_discovery_playlist_stats]. *)
Definition get_discovery_playlist_stats (s : Store.Server)
  : result Stats.PlaylistStats PlaylistError * Store.Server :=
  match get_discovery_tracks s with
  | (Err e, s') => (Err e, s')
  | (Ok tracks, s') => (Ok (Stats.from_tracks order tracks), s')
  end.

(** [PlaylistManager::get_playlists_summary]. *)
Definition get_playlists_summary (s : Store.Server)
  : result PlaylistsSummary PlaylistError * Store.Server :=
  match get_collaborative_playlist_stats s with
  | (Err e, s1) => (Err e, s1)
  | (Ok collaborative_stats, s1) =>
      match get_discovery_playlist_stats s1 with
      | (Err e, s2) => (Err e, s2)
      | (Ok discovery_stats, s2) => (Ok (mkSummary collaborative_stats discovery_stats), s2)
      end
  end.

End Queries.

(** [PlaylistsSummary::total_tracks]. *)
Definition total_tracks (sm : PlaylistsSummary) : nat :=
  (Stats.total_tracks (collaborative sm) + Stats.total_tracks (discovery sm))%nat.

(** [PlaylistsSummary::total_unique_artists]. *)
Definition total_unique_artists (sm : PlaylistsSummary) : nat :=
  (Stats.unique_artists (collaborative sm) + Stats.unique_artists (discovery sm))%nat.

End Summary.

(** * The discovery generator: seed selection and search-based
    recommendations (src/src/discovery_generator.rs) *)
Module Discovery.

Definition MAX_SEED_TRACKS : nat := 5.
Definition RECENT_TRACKS_POOL_SIZE : nat := 50.

(** Default of [nth]; only returned past the end of the list. *)
Definition default_track : TrackInfo :=
  mkTrack "" "" "" [] "" 0 [] None None false.

(** The [recent_tracks] window: the whole listing when it has at most 50
    tracks, otherwise [all_tracks.into_iter().rev().take(50)]. *)
Definition recent_tracks (all_tracks : list TrackInfo) : list TrackInfo :=
  if (List.length all_tracks <=? RECENT_TRACKS_POOL_SIZE)%nat then all_tracks
  else firstn RECENT_TRACKS_POOL_SIZE (rev all_tracks).

(** What [choose_multiple(&mut rng, amount)] may return on a slice of [n]
    elements: [amount] distinct positions of the slice (here
    [amount <= n]). *)
Fixpoint nodup_nat (l : list nat) : bool :=
  match l with
  | [] => true
  | x :: r => negb (existsb (Nat.eqb x) r) && nodup_nat r
  end.

Definition choice_ok (n amount : nat) (picks : list nat) : bool :=
  nodup_nat picks && (List.length picks =? amount)%nat
  && forallb (fun i => (i <? n)%nat) picks.

(** The last [min 50 N] tracks of an [N]-track listing. *)
Definition last_window (all_tracks : list TrackInfo) : list TrackInfo :=
  skipn (List.length all_tracks - RECENT_TRACKS_POOL_SIZE) all_tracks.

(** [select_seed_tracks]; [choose recent amount] is the outcome of the random
    draw, as positions in [recent]. *)
Definition select_seed_tracks (all_tracks : list TrackInfo)
  (choose : list TrackInfo -> nat -> list nat) : result (list string) DiscoveryError :=
  match all_tracks with
  | [] => Err (InsufficientSeedTracks 0 1)
  | _ =>
      let recent := recent_tracks all_tracks in
      let seed_count := Nat.min MAX_SEED_TRACKS (List.length recent) in
      let selected_tracks := map (fun i => nth i recent default_track)
                               (choose recent seed_count) in
      Ok (map id selected_tracks)
  end.

(** [format!("{} {}", artist_name, track_name)] with the first artist, or
    the empty string. *)
Definition search_query (info : TrackInfo) : string :=
  unwrap_or (head (artists info)) "" ++ " " ++ name info.

Section Recommendations.

(** The client's answers to the [i]-th seed's [get_track_info] and
    [search_tracks(query, 10)] calls. *)
Variable track_info : nat -> string -> result TrackInfo SpotifyError.
Variable search_tracks : nat -> string -> result (list TrackInfo) SpotifyError.

(** The inner [for track in search_results.into_iter().skip(1)] loop;
    [seen] is [seen_track_ids], [acc] is [discovery_tracks]. *)
Fixpoint accept (results : list TrackInfo) (seen : list string)
  (acc : list TrackInfo) : list string * list TrackInfo :=
  match results with
  | [] => (seen, acc)
  | t :: rest =>
      if existsb (String.eqb (id t)) seen then accept rest seen acc
      else
        let acc' := (acc ++ [t])%list in
        if (20 <=? List.length acc')%nat then (id t :: seen, acc')
        else accept rest (id t :: seen) acc'
  end.

(** The outer [for seed_track_id in seed_tracks.iter()] loop, [i] being the
    position of the seed. *)
Fixpoint seeds_loop (i : nat) (seeds : list string) (seen : list string)
  (acc : list TrackInfo) : list TrackInfo :=
  match seeds with
  | [] => acc
  | seed_track_id :: rest =>
      match track_info i seed_track_id with
      | Err _ => seeds_loop (S i) rest seen acc
      | Ok info =>
          match search_tracks i (search_query info) with
          | Err _ => seeds_loop (S i) rest seen acc
          | Ok search_results =>
              let '(seen', acc') := accept (skipn 1 search_results) seen acc in
              if (20 <=? List.length acc')%nat then acc'
              else seeds_loop (S i) rest seen' acc'
          end
      end
  end.

(** [get_recommendations]. *)
Definition get_recommendations (seed_tracks : list string)
  : result (list TrackInfo) DiscoveryError :=
  match seed_tracks with
  | [] => Err (SeedSelectionFailed "No seed tracks provided for recommendations")
  | _ =>
      match seeds_loop 0 seed_tracks [] [] with
      | [] => Err (RecommendationGenerationFailed
                     "Could not generate any recommendations using search API")
      | discovery_tracks => Ok discovery_tracks
      end
  end.

End Recommendations.

End Discovery.

(** * The discovery workflow (src/src/discovery_generator.rs, with
    [DiscoveryPlaylist] of src/src/models.rs)

    The collaborative playlist is read through the store model, the seeds'
    lookups and searches are the oracles of [Discovery.get_recommendations],
    and the replacement of the discovery playlist goes through the client
    model ([Client.replace_discovery_playlist]). *)
Module Generator.
Import Discovery.

(** [DiscoveryPlaylist], without [generated_at] ([SystemTime::now()]). *)
Record DiscoveryPlaylist : Type := mkDiscoveryPlaylist {
  dp_tracks : list TrackInfo;
  dp_seed_tracks : list string;
  dp_stats : Stats.PlaylistStats
}.

(** [GenerationStats]. *)
Record GenerationStats : Type := mkGenerationStats {
  total_collaborative_tracks : nat;
  recent_tracks_pool_size : nat;
  max_seed_tracks : nat;
  can_generate : bool
}.

(** [DiscoveryPlaylist::track_count]. *)
Definition track_count (p : DiscoveryPlaylist) : nat := List.length (dp_tracks p).

(** [DiscoveryPlaylist::is_complete]. *)
Definition is_complete (p : DiscoveryPlaylist) : bool := (List.length (dp_tracks p) =? 20)%nat.

Section Workflow.

Variable cfg : BotConfig.
(** [format!("{:?}", e)] of a [SpotifyError] (inside the playlist manager)
    and of a [PlaylistError] (here). *)
Variable debug_spotify : SpotifyError -> string.
Variable debug_playlist : PlaylistError -> string.
(** Iteration order of the [HashMap] in [PlaylistStats::from_tracks]. *)
Variable order : list (string * nat) -> list (string * nat).
(** The random draw of [select_seed_tracks]. *)
Variable choose : list TrackInfo -> nat -> list nat.
(** The client's answers to the seeds' lookups and searches. *)
Variable track_info : nat -> string -> result TrackInfo SpotifyError.
Variable search_tracks : nat -> string -> result (list TrackInfo) SpotifyError.

(** [DiscoveryPlaylist::new]. *)
Definition new_discovery_playlist (tracks : list TrackInfo) (seed_tracks : list string)
  : DiscoveryPlaylist :=
  mkDiscoveryPlaylist tracks seed_tracks (Stats.from_tracks order tracks).

(** [generate_weekly_playlist]. *)
Definition generate_weekly_playlist (s : Store.Server)
  : result DiscoveryPlaylist DiscoveryError * Store.Server :=
  match Store.get_collaborative_tracks cfg debug_spotify s with
  | (Err e, s') =>
      (Err (RecommendationGenerationFailed
              ("Failed to get collaborative tracks: " ++ debug_playlist e)), s')
  | (Ok collaborative_tracks, s') =>
      match collaborative_tracks with
      | [] => (Err (InsufficientSeedTracks 0 1), s')
      | _ =>
          match select_seed_tracks collaborative_tracks choose with
          | Err e => (Err e, s')
          | Ok seed_tracks =>
              match get_recommendations track_info search_tracks seed_tracks with
              | Err e => (Err e, s')
              | Ok recommendations =>
                  let discovery_tracks := firstn 20 recommendations in
                  (Ok (new_discovery_playlist discovery_tracks seed_tracks), s')
              end
          end
      end
  end.

(** [get_generation_stats]. *)
Definition get_generation_stats (s : Store.Server)
  : result GenerationStats DiscoveryError * Store.Server :=
  match Store.get_collaborative_tracks cfg debug_spotify s with
  | (Err e, s') =>
      (Err (RecommendationGenerationFailed
              ("Failed to get collaborative tracks: " ++ debug_playlist e)), s')
  | (Ok collaborative_tracks, s') =>
      let total_tracks := List.length collaborative_tracks in
      (Ok (mkGenerationStats total_tracks (Nat.min 50 total_tracks)
             (Nat.min 5 total_tracks) (0 <? total_tracks)%nat), s')
  end.

Variable server : Client.Request -> nat -> option Client.Response.
Variable jitter : nat -> Z.
Variable token_endpoint : nat -> Client.TokenReply.

(** [generate_and_replace_discovery_playlist]. *)
Definition generate_and_replace_discovery_playlist (s : Store.Server)
  (c : Client.ClientState)
  : result DiscoveryPlaylist DiscoveryError * (Store.Server * Client.ClientState) :=
  match generate_weekly_playlist s with
  | (Err e, s') => (Err e, (s', c))
  | (Ok discovery_playlist, s') =>
      let track_uris := map uri (dp_tracks discovery_playlist) in
      match Client.replace_discovery_playlist cfg server jitter token_endpoint debug_spotify
              track_uris c with
      | (Err e, c') =>
          (Err (PlaylistCreationFailed
                  ("Failed to replace discovery playlist: " ++ debug_playlist e)), (s', c'))
      | (Ok _, c') => (Ok discovery_playlist, (s', c'))
      end
  end.

End Workflow.

End Generator.

(** * Reading a track out of a JSON response ([parse_track_info] and
    [get_track_info], src/src/spotify_client.rs) *)
Module Json.

(** [serde_json::Number]: a [u64], a negative [i64] or an [f64] (whose
    value is not needed here). *)
Inductive Number : Type :=
| PosInt (n : Z)
| NegInt (n : Z)
| Float.

(** [serde_json::Value]; a [Map<String, Value>] is the list of its entries,
    with distinct keys. *)
#[warnings="-register-all"]
Inductive Value : Type :=
| JNull
| JBool (b : bool)
| JNumber (n : Number)
| JString (s : string)
| JArray (l : list Value)
| JObject (m : list (string * Value)).

Definition lookup (k : string) (m : list (string * Value)) : option Value :=
  option_map snd (find (fun e => String.eqb (fst e) k) m).

(** [map[k]] on a [Map]: panics when the key is absent, written [None]. *)
Definition map_index (m : list (string * Value)) (k : string) : option Value := lookup k m.

(** [v[k]] on a [Value]: [Null] unless [v] is an object holding [k]. *)
Definition value_index (v : Value) (k : string) : Value :=
  match v with
  | JObject m => unwrap_or (lookup k m) JNull
  | _ => JNull
  end.

Definition as_str (v : Value) : option string :=
  match v with JString s => Some s | _ => None end.

Definition as_u64 (v : Value) : option Z :=
  match v with JNumber (PosInt n) => Some n | _ => None end.

Definition as_bool (v : Value) : option bool :=
  match v with JBool b => Some b | _ => None end.

Definition as_array (v : Value) : option (list Value) :=
  match v with JArray l => Some l | _ => None end.

Definition as_object (v : Value) : option (list (string * Value)) :=
  match v with JObject m => Some m | _ => None end.

(** [.filter_map(|artist| artist["name"].as_str())]. *)
Definition artist_names (l : list Value) : list string :=
  flat_map (fun artist => match as_str (value_index artist "name") with
                          | Some s => [s]
                          | None => []
                          end) l.

(** [.filter_map(|(k, v)| v.as_str().map(|s| (k.clone(), s.to_string())))]. *)
Definition string_entries (m : list (string * Value)) : list (string * string) :=
  flat_map (fun e => match as_str (snd e) with
                     | Some s => [(fst e, s)]
                     | None => []
                     end) m.

(** [parse_track_info]: [None] is a panic of one of the [Map] indexings,
    [Some r] a return. *)
Definition parse_track_info (track_data : list (string * Value))
  : option (result TrackInfo SpotifyError) :=
  match map_index track_data "id" with None => None | Some v_id =>
  match as_str v_id with
  | None => Some (Err (JsonParsingError "Missing track ID"))
  | Some id =>
  match map_index track_data "uri" with None => None | Some v_uri =>
  match as_str v_uri with
  | None => Some (Err (JsonParsingError "Missing track URI"))
  | Some uri =>
  match map_index track_data "name" with None => None | Some v_name =>
  match as_str v_name with
  | None => Some (Err (JsonParsingError "Missing track name"))
  | Some name =>
  match map_index track_data "artists" with None => None | Some v_artists =>
  match as_array v_artists with
  | None => Some (Err (JsonParsingError "Missing artists array"))
  | Some arts =>
  let artists := artist_names arts in
  match map_index track_data "album" with None => None | Some v_album =>
  match as_str (value_index v_album "name") with
  | None => Some (Err (JsonParsingError "Missing album name"))
  | Some album =>
  match map_index track_data "duration_ms" with None => None | Some v_dur =>
  match as_u64 v_dur with
  | None => Some (Err (JsonParsingError "Missing duration"))
  | Some d =>
  let duration_ms := d mod 2 ^ 32 in                     (* as u32 *)
  match map_index track_data "external_urls" with None => None | Some v_urls =>
  let external_urls := match as_object v_urls with
                       | Some urls => string_entries urls
                       | None => []                       (* unwrap_or_default *)
                       end in
  match map_index track_data "popularity" with None => None | Some v_pop =>
  let popularity := option_map (fun p => p mod 2 ^ 8) (as_u64 v_pop) in   (* as u8 *)
  match map_index track_data "preview_url" with None => None | Some v_prev =>
  let preview_url := as_str v_prev in
  match map_index track_data "explicit" with None => None | Some v_expl =>
  let explicit := unwrap_or (as_bool v_expl) false in
  Some (Ok (mkTrack id uri name artists album duration_ms external_urls
              popularity preview_url explicit))
  end end end end end end end end end end end end end end end end.

(** The tail of [get_track_info], once [make_get_request] has returned
    [response]. *)
Definition get_track_info_response (response : Value)
  : option (result TrackInfo SpotifyError) :=
  match as_object response with
  | None => Some (Err (JsonParsingError "Invalid track response"))
  | Some track_data => parse_track_info track_data
  end.

(** A track object in the shape the Web API sends and [parse_track_info]
    reads (entries in key order). *)
Definition track_object (t : TrackInfo) : list (string * Value) :=
  [("album", JObject [("name", JString (album t))]);
   ("artists", JArray (map (fun a => JObject [("name", JString a)]) (artists t)));
   ("duration_ms", JNumber (PosInt (duration_ms t)));
   ("explicit", JBool (explicit t));
   ("external_urls", JObject (map (fun e => (fst e, JString (snd e))) (external_urls t)));
   ("id", JString (id t));
   ("name", JString (name t));
   ("popularity", match popularity t with Some p => JNumber (PosInt p) | None => JNull end);
   ("preview_url", match preview_url t with Some s => JString s | None => JNull end);
   ("uri", JString (uri t))].

(** The keys [parse_track_info] indexes with [map[k]]. *)
Definition optional_keys : list string :=
  ["external_urls"; "popularity"; "preview_url"; "explicit"].

End Json.

(** * Concrete inputs used by the witnesses and counterexamples *)
Module Examples.
Import Store.

Definition test_cfg : BotConfig := mkConfig "collab" "disc" 3 1000 30000.

Definition track (tid nm : string) : TrackInfo :=
  mkTrack tid ("spotify:track:" ++ tid) nm ["Artist"] "Album" 1000 [] None None false.

Definition tA : TrackInfo := track "abc" "Song".
Definition tX : TrackInfo := track "x" "X".
Definition tY : TrackInfo := track "y" "Y".
Definition tZ : TrackInfo := track "z" "Z".

(** A server whose catalog holds [tA] and whose playlist ["collab"] holds
    [items]; the add POST fails with [post] when it is set. *)
Definition store_with (post : option SpotifyError) (items : list PlaylistItem) : Server :=
  mkServer [tA] (fun pl => if String.eqb pl "collab" then items else [])
    (TrackNotFound "abc") None post [].

(** The [{:?}] rendering of an error, as far as the examples need it. *)
Definition debug_name (e : SpotifyError) : string :=
  match e with
  | NetworkError _ => "NetworkError"
  | _ => "SpotifyError"
  end.

(** A server whose playlist ["pl"] holds [n] well-formed copies of [tA]. *)
Definition paged_store (n : nat) : Server :=
  mkServer [tA]
    (fun pl => if String.eqb pl "pl" then map well_formed_item (repeat tA n) else [])
    (TrackNotFound "abc") None None [].

(** A draw of [choose_multiple] that picks the first [amount] positions. *)
Definition choose_prefix (l : list TrackInfo) (amount : nat) : list nat := seq 0 amount.

(** Client answers for two seeds: every seed resolves to [tA]; the first
    search returns [tX; tY], the second [tZ; tX]. *)
Definition rec_track_info (i : nat) (sid : string) : result TrackInfo SpotifyError := Ok tA.

Definition rec_search (i : nat) (q : string) : result (list TrackInfo) SpotifyError :=
  match i with
  | O => Ok [tX; tY]
  | _ => Ok [tZ; tX]
  end.

(** The [{:?}] rendering of a [PlaylistError], as far as the examples need it. *)
Definition debug_playlist_name (e : PlaylistError) : string := "PlaylistError".

(** A server whose collaborative playlist holds [tX], [tY] and [tZ]. *)
Definition gen_store : Server :=
  mkServer [tA]
    (fun pl => if String.eqb pl "collab" then map well_formed_item [tX; tY; tZ] else [])
    (TrackNotFound "abc") None None [].

(** A client holding a valid token, and a GET request. *)
Definition fresh_client : Client.ClientState := Client.mkClient (Some "tok") false [].
Definition get_req : Client.Request := Client.mkRequest Client.GET "ep" [].

(** A token endpoint granting ["tok2"] (with no [expires_in]) at every
    refresh, and one refusing every refresh with HTTP 400. *)
Definition token_granted (k : nat) : Client.TokenReply :=
  Client.TokenResponse 200 "" (Client.BodyJson (Some "tok2") None).
Definition token_refused (k : nat) : Client.TokenReply :=
  Client.TokenResponse 400 "invalid_grant" (Client.BodyJson None None).

(** A server answering every attempt with [status] and an empty body. *)
Definition status_server (st : Z) (r : Client.Request) (k : nat) : option Client.Response :=
  Some (Client.mkResponse st None "" true).

(** A server whose collaborative playlist holds [tX] and whose discovery
    playlist holds [tY] (both by ["Artist"]). *)
Definition summary_store : Server :=
  mkServer [tA]
    (fun pl => if String.eqb pl "collab" then [well_formed_item tX]
               else if String.eqb pl "disc" then [well_formed_item tY] else [])
    (TrackNotFound "abc") None None [].

(** The Web API object of [tX] without its ["popularity"] entry. *)
Definition object_without_popularity : list (string * Json.Value) :=
  filter (fun e => negb (String.eqb (fst e) "popularity")) (Json.track_object tX).

End Examples.

(** * Properties of the resilient client *)

Section ClientFacts.
Import Client.

Lemma extends_refl c : extends c c.
Proof. exists []. now rewrite app_nil_r. Qed.

Lemma extends_trans c1 c2 c3 : extends c1 c2 -> extends c2 c3 -> extends c1 c3.
Proof.
  intros [r1 H1] [r2 H2]. exists (r1 ++ r2)%list. now rewrite H2, H1, app_assoc.
Qed.

Lemma extends_log e c : extends c (log_event e c).
Proof. now exists [e]. Qed.

(** A refresh logs one [RefreshToken], whatever the endpoint answers. *)
Lemma refresh_events tep c :
  events (snd (refresh_access_token tep c)) = (events c ++ [RefreshToken])%list.
Proof.
  unfold refresh_access_token.
  destruct (tep (refresh_count (events c))) as [m|st t [m|[tk|] e]]; cbn;
    try destruct (negb (is_success st)); reflexivity.
Qed.


Lemma refresh_extends rok c : extends c (snd (refresh_access_token rok c)).
Proof. exists [RefreshToken]. apply refresh_events. Qed.

Lemma should_retry_extends rok e c : extends c (snd (should_retry_error rok e c)).
Proof.
  unfold should_retry_error.
  destruct e; simpl; try apply extends_refl.
  - destruct (refresh_access_token rok c) as [[] c'] eqn:E; simpl;
      pose proof (refresh_extends rok c) as H; rewrite E in H; exact H.
  - apply extends_log.
Qed.

Lemma request_loop_extends cfg server jit rok f r a c :
  extends c (snd (request_loop cfg server jit rok f r a c)).
Proof.
  revert a c. induction f as [|f IH]; intros a c; simpl; [apply extends_refl|].
  destruct (build_headers c); simpl; [|apply extends_refl].
  destruct (server r (S a)) as [resp|]; simpl; [|apply extends_log].
  destruct (handle_response resp) as [v|err]; simpl; [apply extends_log|].
  destruct (max_retry_attempts cfg <=? S a)%nat; simpl; [apply extends_log|].
  pose proof (should_retry_extends rok err (log_event (Send r (S a)) c)) as Hs.
  destruct (should_retry_error rok err (log_event (Send r (S a)) c)) as [[[|]|e] c'];
    simpl in *.
  - eapply extends_trans; [apply extends_log|].
    eapply extends_trans; [exact Hs|].
    eapply extends_trans; [apply extends_log|]. apply IH.
  - eapply extends_trans; [apply extends_log|exact Hs].
  - eapply extends_trans; [apply extends_log|exact Hs].
Qed.

(** Logging an event does not touch the token. *)
Lemma build_headers_log e c : build_headers (log_event e c) = build_headers c.
Proof. reflexivity. Qed.

(** With fuel left and a token the [Authorization] header accepts, the
    next thing the loop does is an HTTP attempt. *)
Lemma request_loop_sends_first cfg server jit rok f r a c :
  build_headers c = Ok tt ->
  exists rest, events (snd (request_loop cfg server jit rok (S f) r a c))
               = (events c ++ Send r (S a) :: rest)%list.
Proof.
  intros Hb.
  cbn [request_loop]. rewrite Hb.
  set (c1 := log_event (Send r (S a)) c).
  assert (Hc1 : events c1 = (events c ++ [Send r (S a)])%list) by reflexivity.
  assert (Hgen : forall c', extends c1 c' ->
            exists rest, events c' = (events c ++ Send r (S a) :: rest)%list).
  { intros c' [rest Hr]. exists rest. rewrite Hr, Hc1, <- app_assoc. reflexivity. }
  apply Hgen.
  destruct (server r (S a)) as [resp|]; simpl; [|apply extends_refl].
  destruct (handle_response resp) as [v|err]; simpl; [apply extends_refl|].
  destruct (max_retry_attempts cfg <=? S a)%nat; simpl; [apply extends_refl|].
  pose proof (should_retry_extends rok err c1) as Hs.
  destruct (should_retry_error rok err c1) as [[[|]|e] c']; simpl in *; auto.
  eapply extends_trans; [exact Hs|].
  eapply extends_trans; [apply extends_log|]. apply request_loop_extends.
Qed.

Lemma send_count_app l1 l2 : send_count (l1 ++ l2) = (send_count l1 + send_count l2)%nat.
Proof. induction l1 as [|[] l1 IH]; cbn; rewrite ?IH; reflexivity. Qed.

(** [should_retry_error] makes no HTTP attempt of the request. *)
Lemma should_retry_no_send rok e c :
  exists rest, events (snd (should_retry_error rok e c)) = (events c ++ rest)%list /\
               send_count rest = O.
Proof.
  destruct e; cbn [should_retry_error];
    try (exists []; rewrite app_nil_r; split; reflexivity).
  - pose proof (refresh_events rok c) as E.
    destruct (refresh_access_token rok c) as [[u|e'] c']; cbn [snd] in E |- *;
      exists [RefreshToken]; split; [exact E | reflexivity | exact E | reflexivity].
  - exists [Sleep retry_after_ms]; split; reflexivity.
Qed.

(** Refreshing the token makes no HTTP attempt of the request itself. *)
Lemma ensure_valid_token_no_send rok c :
  exists rest, events (snd (ensure_valid_token rok c)) = (events c ++ rest)%list /\
               send_count rest = O.
Proof.
  unfold ensure_valid_token.
  destruct (token_needs_refresh c).
  - exists [RefreshToken]. split; [apply refresh_events | reflexivity].
  - exists []. rewrite app_nil_r. split; reflexivity.
Qed.

Lemma build_headers_ok c tok :
  access_token c = Some tok -> header_value_ok ("Bearer " ++ tok) = true ->
  build_headers c = Ok tt.
Proof. intros Htok Hh. unfold build_headers. now rewrite Htok, Hh. Qed.

(** A log never equals itself followed by a [Send]. *)
Lemma log_not_longer (l p q : list Event) x : l <> (l ++ p ++ x :: q)%list.
Proof.
  intros H. apply (f_equal (@List.length _)) in H.
  rewrite !length_app in H. cbn [List.length] in H. lia.
Qed.

(** Splitting a log at a [Send] that lies past a stretch without sends. *)
Lemma split_after_no_send (B : list Event) : forall A P T x,
  send_count B = O -> send_count [x] = 1%nat ->
  (A ++ x :: P = B ++ T)%list ->
  exists A', A = (B ++ A')%list /\ (A' ++ x :: P = T)%list.
Proof.
  induction B as [|y B IH]; intros A P T x HB Hx H.
  - exists A. split; [reflexivity | exact H].
  - destruct A as [|z A]; cbn in H; injection H as Hz H.
    + subst y. cbn [send_count] in Hx, HB.
      destruct x; cbn [send_count] in Hx, HB; discriminate.
    + subst z. assert (HB' : send_count B = O).
      { destruct y; cbn [send_count] in HB; [discriminate | exact HB | exact HB]. }
      destruct (IH A P T x HB' Hx H) as [A' [-> HT]].
      exists A'. split; [reflexivity | exact HT].
Qed.


(** The heart of C1: in the loop, an attempt [k] answered by 429 with
    attempts left is followed by the server's delay, the backoff delay of
    attempt [k], and attempt [k + 1]. *)
Lemma request_loop_rate_limit cfg server jit rok r k h b js
  (Hk : (k < max_retry_attempts cfg)%nat)
  (H429 : server r k = Some (mkResponse 429 h b js)) :
  forall f a c pre post, (k < a + f)%nat ->
  events (snd (request_loop cfg server jit rok f r a c)) =
    (events c ++ pre ++ Send r k :: post)%list ->
  exists rest,
    post = Sleep (retry_after_ms_of h) :: Sleep (calculate_backoff_delay cfg k (jit k))
           :: Send r (S k) :: rest.
Proof.
  induction f as [|f IH]; intros a c pre post Hf Hev.
  { cbn [request_loop snd] in Hev. exfalso. exact (log_not_longer _ _ _ _ Hev). }
  cbn [request_loop] in Hev.
  destruct (build_headers c) as [u|e] eqn:Hb.
  2:{ cbn [snd] in Hev. exfalso. exact (log_not_longer _ _ _ _ Hev). }
  set (c1 := log_event (Send r (S a)) c) in Hev.
  assert (Hc1 : events c1 = (events c ++ [Send r (S a)])%list) by reflexivity.
  (* the only event of this round is [Send r (S a)] *)
  assert (Hone : forall c', events c' = events c1 ->
            events c' = (events c ++ pre ++ Send r k :: post)%list ->
            k = S a /\ pre = [] /\ post = []).
  { intros c' E1 E2. rewrite E1, Hc1 in E2. apply app_inv_head in E2.
    destruct pre as [|x pre]; cbn in E2; injection E2 as E3 E4.
    - subst. auto.
    - destruct pre; discriminate. }
  destruct (server r (S a)) as [resp|] eqn:Hs.
  2:{ cbn [snd] in Hev. destruct (Hone c1 eq_refl Hev) as [-> _]. congruence. }
  assert (Hrl : k = S a -> handle_response resp = Err (RateLimitExceeded (retry_after_ms_of h))).
  { intros ->. rewrite Hs in H429. injection H429 as ->. reflexivity. }
  destruct (handle_response resp) as [v|err] eqn:Hh.
  { cbn [snd] in Hev. destruct (Hone c1 eq_refl Hev) as [Hka _].
    specialize (Hrl Hka). discriminate. }
  destruct (max_retry_attempts cfg <=? S a)%nat eqn:Em.
  { cbn [snd] in Hev. destruct (Hone c1 eq_refl Hev) as [-> _].
    apply Nat.leb_le in Em. lia. }
  destruct (should_retry_no_send rok err c1) as [r1 [E1 S1]].
  destruct (should_retry_error rok err c1) as [[[|]|e] c'] eqn:Er; cbn [snd] in E1, Hev.
  - set (d := calculate_backoff_delay cfg (S a) (jit (S a))) in Hev.
    set (c2 := log_event (Sleep d) c') in Hev.
    assert (Hc2 : events c2 = (events c ++ Send r (S a) :: r1 ++ [Sleep d])%list).
    { unfold c2, log_event. cbn [events]. rewrite E1, Hc1, <- !app_assoc. reflexivity. }
    destruct (request_loop_extends cfg server jit rok f r (S a) c2) as [T HT].
    rewrite HT, Hc2, <- app_assoc in Hev. apply app_inv_head in Hev.
    destruct pre as [|x pre].
    + cbn in Hev. injection Hev as Hka Hpost. subst k.
      specialize (Hrl eq_refl). injection Hrl as ->.
      cbn [should_retry_error] in Er. injection Er as <-.
      destruct f as [|f]; [lia|].
      assert (Hb2 : build_headers c2 = Ok tt).
      { unfold c2, c1. rewrite !build_headers_log. destruct u. exact Hb. }
      destruct (request_loop_sends_first cfg server jit rok f r (S a) c2 Hb2) as [rest Hr].
      rewrite Hr in HT. apply app_inv_head in HT. subst T.
      assert (Hr1 : r1 = [Sleep (retry_after_ms_of h)]).
      { symmetry. apply (app_inv_head (events c1)). rewrite <- E1. reflexivity. }
      subst r1. exists rest. rewrite <- Hpost. reflexivity.
    + cbn in Hev. injection Hev as _ Hev.
      assert (Hn : send_count (r1 ++ [Sleep d])%list = O).
      { rewrite send_count_app, S1. reflexivity. }
      destruct (split_after_no_send (r1 ++ [Sleep d]) pre post T (Send r k) Hn eq_refl)
        as [A' [_ HA']]; [symmetry; exact Hev|].
      apply (IH (S a) c2 A' post); [lia|].
      rewrite HT, HA'. reflexivity.
  - rewrite E1, Hc1, <- app_assoc in Hev. apply app_inv_head in Hev.
    destruct pre as [|x pre]; cbn in Hev; injection Hev as Hka Hev.
    + subst k. specialize (Hrl eq_refl). injection Hrl as ->.
      cbn [should_retry_error] in Er. discriminate.
    + apply (f_equal send_count) in Hev. rewrite send_count_app in Hev.
      cbn [send_count] in Hev. lia.
  - rewrite E1, Hc1, <- app_assoc in Hev. apply app_inv_head in Hev.
    destruct pre as [|x pre]; cbn in Hev; injection Hev as Hka Hev.
    + subst k. specialize (Hrl eq_refl). injection Hrl as ->.
      cbn [should_retry_error] in Er. discriminate.
    + apply (f_equal send_count) in Hev. rewrite send_count_app in Hev.
      cbn [send_count] in Hev. lia.
Qed.

End ClientFacts.

Section ClientClaims.
Import Client.


(** C6: with [max_retry_attempts = 3], a token the [Authorization] header
    accepts, and a server answering every attempt of a GET with HTTP 500,
    exactly three attempts are sent (with a backoff sleep after the first
    two) and the call returns [ApiRequestFailed 500]. *)
Theorem get_all_500_three_attempts (cfg : BotConfig) (server : Request -> nat -> option Response)
  (jit : nat -> Z) (tep : nat -> TokenReply) (ep : string) (resp : Response) (c : ClientState)
  (tok : string)
  (H3 : max_retry_attempts cfg = 3%nat)
  (Hsrv : forall k, server (mkRequest GET ep []) k = Some resp)
  (Hst : status resp = 500)
  (Htok : access_token c = Some tok)
  (Hhdr : header_value_ok ("Bearer " ++ tok) = true)
  (Hfresh : token_needs_refresh c = false) :
  make_get_request cfg server jit tep ep c =
  (Err (ApiRequestFailed 500 (body resp)),
   mkClient (Some tok) false
     (events c ++
       [Send (mkRequest GET ep []) 1;
        Sleep (calculate_backoff_delay cfg 1 (jit 1%nat));
        Send (mkRequest GET ep []) 2;
        Sleep (calculate_backoff_delay cfg 2 (jit 2%nat));
        Send (mkRequest GET ep []) 3])%list).
Proof.
  assert (Hh : handle_response resp = Err (ApiRequestFailed 500 (body resp))).
  { unfold handle_response. now rewrite Hst. }
  pose proof (build_headers_ok c tok Htok Hhdr) as Hb.
  unfold make_get_request, send_with_retry, ensure_valid_token.
  rewrite Hfresh, H3.
  cbn [request_loop]. rewrite Hb, Hsrv, Hh. cbn [should_retry_error Nat.leb].
  cbn [request_loop]. rewrite !build_headers_log, Hb, Hsrv, Hh. cbn [should_retry_error Nat.leb].
  cbn [request_loop]. rewrite !build_headers_log, Hb, Hsrv, Hh. cbn [Nat.leb].
  change ((500 <=? 500) || (500 =? 429) || (500 =? 408)) with true.
  rewrite H3. cbn [Nat.leb].
  destruct c as [at0 nr ev]. cbn in Htok, Hfresh. subst at0 nr.
  unfold log_event; cbn [events access_token token_needs_refresh]. now rewrite <- !app_assoc.
Qed.

Lemma digit_value_visible ch d : digit_value ch = Some d -> is_visible_ascii ch = true.
Proof.
  unfold digit_value, is_visible_ascii.
  destruct ((48 <=? nat_of_ascii ch)%nat && (nat_of_ascii ch <=? 57)%nat) eqn:E;
    [|discriminate].
  intros _. apply andb_true_iff in E as [E1 E2].
  apply Nat.leb_le in E1. apply Nat.leb_le in E2.
  apply orb_true_iff. left. apply andb_true_iff. split.
  - apply Nat.leb_le. lia.
  - apply Nat.ltb_lt. lia.
Qed.

Lemma parse_digits_visible s acc v : parse_digits s acc = Some v -> all_visible s = true.
Proof.
  revert acc. induction s as [|ch s IH]; intros acc; simpl; [reflexivity|].
  destruct (digit_value ch) as [d|] eqn:Ed; [|discriminate].
  intros H. rewrite (digit_value_visible ch d Ed). simpl. eapply IH. exact H.
Qed.

(** A header value that parses as [u64] passes [HeaderValue::to_str]. *)
Lemma parse_u64_visible s v : parse_u64 s = Some v -> all_visible s = true.
Proof.
  unfold parse_u64.
  destruct s as [|ch rest]; [discriminate|].
  destruct (ascii_dec ch "+"%char) as [->|Hne].
  - simpl. destruct rest as [|ch' rest']; [discriminate|].
    destruct (parse_digits (String ch' rest') 0) eqn:E; [|discriminate].
    intros _. apply parse_digits_visible in E. now rewrite E.
  - assert (Hdig : (match String ch rest with
                    | String "+"%char r => r
                    | _ => String ch rest end) = String ch rest).
    { destruct ch as [[] [] [] [] [] [] [] []]; try reflexivity; now exfalso. }
    rewrite Hdig.
    destruct (parse_digits (String ch rest) 0) eqn:E; [|discriminate].
    intros _. apply parse_digits_visible in E. exact E.
Qed.

Lemma header_to_str_parsed s v : parse_u64 s = Some v -> header_to_str s = Some s.
Proof. intros H. unfold header_to_str. now rewrite (parse_u64_visible s v H). Qed.

Lemma parse_u64_range s v : parse_u64 s = Some v -> 0 <= v.
Proof.
  unfold parse_u64.
  assert (Hd : forall t acc w, 0 <= acc -> parse_digits t acc = Some w -> 0 <= w).
  { induction t as [|ch t IH]; intros acc w Hacc; simpl.
    - congruence.
    - unfold digit_value.
      destruct ((48 <=? nat_of_ascii ch)%nat && (nat_of_ascii ch <=? 57)%nat) eqn:E;
        [|discriminate].
      apply andb_true_iff in E as [E1 _]. apply Nat.leb_le in E1.
      apply IH. lia. }
  destruct (match s with String "+"%char r => r | _ => s end) as [|ch t]; [discriminate|].
  destruct (parse_digits (String ch t) 0) eqn:E; [|discriminate].
  destruct (z <? u64_modulus); [|discriminate]. intros [= <-].
  eapply Hd; [|exact E]. lia.
Qed.

(** C10: the rate-limit error of a 429 carries 1000 ms when the header is
    absent or does not parse as [u64], and [v * 1000] when it parses as [v]
    and [v * 1000] fits in [u64]. *)
Theorem rate_limit_retry_after_ms (b : string) (js : bool) :
  handle_response (mkResponse 429 None b js) = Err (RateLimitExceeded 1000) /\
  (forall s, parse_u64 s = None ->
     handle_response (mkResponse 429 (Some s) b js) = Err (RateLimitExceeded 1000)) /\
  (forall s v, parse_u64 s = Some v -> v * 1000 < u64_modulus ->
     handle_response (mkResponse 429 (Some s) b js) = Err (RateLimitExceeded (v * 1000))).
Proof.
  split; [reflexivity|]. split.
  - intros s Hs. unfold handle_response. simpl. unfold retry_after_ms_of. simpl.
    unfold header_to_str. destruct (all_visible s); simpl; [rewrite Hs|]; reflexivity.
  - intros s v Hs Hfit. unfold handle_response. simpl. unfold retry_after_ms_of. simpl.
    rewrite (header_to_str_parsed s v Hs). simpl. rewrite Hs. simpl.
    unfold wrap64. rewrite Z.mod_small; [reflexivity|].
    pose proof (parse_u64_range s v Hs). lia.
Qed.

(** C1 (as the code does it): in a call of [make_get_request],
    [make_post_request] or the PUT loop, an attempt [k] answered by HTTP 429
    while attempts remain ([k < max_retry_attempts]) is followed, in this
    order, by the sleep of the server's delay ([retry_after_ms]), the sleep
    of the computed backoff delay of attempt [k], and attempt [k + 1]: the
    server's delay comes on top of the backoff, not instead of it. *)
Theorem rate_limit_sleeps_server_delay_then_backoff (cfg : BotConfig)
  (server : Request -> nat -> option Response) (jit : nat -> Z) (tep : nat -> TokenReply)
  (r : Request) (c : ClientState) (pre post : list Event) (k : nat)
  (h : option string) (b : string) (js : bool)
  (Hk : (k < max_retry_attempts cfg)%nat)
  (H429 : server r k = Some (mkResponse 429 h b js))
  (Htrace : events (snd (send_with_retry cfg server jit tep r c)) =
              (events c ++ pre ++ Send r k :: post)%list) :
  exists rest,
    post = Sleep (retry_after_ms_of h) :: Sleep (calculate_backoff_delay cfg k (jit k))
           :: Send r (S k) :: rest.
Proof.
  unfold send_with_retry in Htrace.
  destruct (ensure_valid_token_no_send tep c) as [r0 [E0 S0]].
  destruct (ensure_valid_token tep c) as [[[]|e] c1]; cbn [snd] in E0, Htrace.
  - destruct (request_loop_extends cfg server jit tep (S (max_retry_attempts cfg)) r 0 c1)
      as [T HT].
    rewrite HT, E0, <- app_assoc in Htrace. apply app_inv_head in Htrace.
    destruct (split_after_no_send r0 pre post T (Send r k) S0 eq_refl (eq_sym Htrace))
      as [A' [_ HA']].
    apply (request_loop_rate_limit cfg server jit tep r k h b js Hk H429
             (S (max_retry_attempts cfg)) 0 c1 A' post); [lia|].
    rewrite HT, HA'. reflexivity.
  - rewrite E0 in Htrace. apply app_inv_head in Htrace.
    apply (f_equal send_count) in Htrace. rewrite S0, send_count_app in Htrace.
    cbn [send_count] in Htrace. lia.
Qed.

(** C7: [replace_discovery_playlist] rejects an empty list with no effect on
    the client (no request); for a non-empty list, with a token the
    [Authorization] header accepts, its first request is the PUT of exactly
    those URIs. *)
Theorem replace_discovery_playlist_empty_rejected (cfg : BotConfig)
  (server : Request -> nat -> option Response) (jit : nat -> Z) (tep : nat -> TokenReply)
  (dbg : SpotifyError -> string) (c : ClientState) (uris : list string) (tok : string)
  (Hne : uris <> [])
  (Htok : access_token c = Some tok)
  (Hhdr : header_value_ok ("Bearer " ++ tok) = true)
  (Hfresh : token_needs_refresh c = false) :
  replace_discovery_playlist cfg server jit tep dbg [] c =
    (Err (ReplaceTracksFailed "Cannot replace playlist with empty track list"), c) /\
  exists rest,
    events (snd (replace_discovery_playlist cfg server jit tep dbg uris c)) =
    (events c ++ Send (mkRequest PUT (tracks_endpoint (discovery_playlist_id cfg)) uris) 1 :: rest)%list.
Proof.
  split; [reflexivity|].
  destruct uris as [|u us]; [contradiction|].
  unfold replace_discovery_playlist, replace_playlist_tracks, send_with_retry, ensure_valid_token.
  rewrite Hfresh.
  destruct (request_loop_sends_first cfg server jit tep (max_retry_attempts cfg)
              (mkRequest PUT (tracks_endpoint (discovery_playlist_id cfg)) (u :: us)) 0 c
              (build_headers_ok c tok Htok Hhdr))
    as [rest Hr].
  exists rest. rewrite <- Hr.
  destruct (request_loop _ _ _ _ _ _ _ _) as [[v|e] c']; reflexivity.
Qed.

End ClientClaims.

(** * Witnesses and counterexamples at concrete inputs *)

Section ClientWitnesses.
Import Client.



Lemma get_all_500_three_attempts_witness :
  make_get_request (mkConfig "collab" "disc" 3 1000 30000)
    (fun _ _ => Some (mkResponse 500 None "boom" false)) (fun _ => 0) Examples.token_granted "e"
    (mkClient (Some "tok") false []) =
  (Err (ApiRequestFailed 500 "boom"),
   mkClient (Some "tok") false
     ([] ++
       [Send (mkRequest GET "e" []) 1;
        Sleep (calculate_backoff_delay (mkConfig "collab" "disc" 3 1000 30000) 1 0);
        Send (mkRequest GET "e" []) 2;
        Sleep (calculate_backoff_delay (mkConfig "collab" "disc" 3 1000 30000) 2 0);
        Send (mkRequest GET "e" []) 3])%list).
Proof.
  apply (get_all_500_three_attempts (mkConfig "collab" "disc" 3 1000 30000)
           (fun _ _ => Some (mkResponse 500 None "boom" false)) (fun _ => 0)
           Examples.token_granted "e"
           (mkResponse 500 None "boom" false) (mkClient (Some "tok") false []) "tok");
    reflexivity.
Defined.

(** C6 needs a token the [Authorization] header accepts: with a newline in
    the token, [build_headers] fails before any attempt is sent. *)
Lemma get_all_500_bad_token_no_attempt :
  make_get_request (mkConfig "collab" "disc" 3 1000 30000)
    (fun _ _ => Some (mkResponse 500 None "boom" false)) (fun _ => 0) Examples.token_granted "e"
    (mkClient (Some (String "010"%char "tok")) false []) =
  (Err (AuthenticationFailed "Invalid token format: failed to parse header value"),
   mkClient (Some (String "010"%char "tok")) false []).
Proof. vm_compute. reflexivity. Qed.

Lemma rate_limit_retry_after_ms_witness :
  handle_response (mkResponse 429 (Some "2") "" false) = Err (RateLimitExceeded (2 * 1000)).
Proof.
  apply (proj2 (proj2 (rate_limit_retry_after_ms "" false))).
  - reflexivity.
  - vm_compute. reflexivity.
Defined.

(** C10 fails for a huge header: [Retry-After: 18446744073709551615] parses
    as a [u64], but [v * 1000] wraps around. *)
Lemma rate_limit_retry_after_overflow :
  parse_u64 "18446744073709551615" = Some 18446744073709551615 /\
  handle_response (mkResponse 429 (Some "18446744073709551615") "" false)
    = Err (RateLimitExceeded 18446744073709550616) /\
  18446744073709550616 <> 18446744073709551615 * 1000.
Proof.
  split; [vm_compute; reflexivity|].
  split; [vm_compute; reflexivity|].
  vm_compute. discriminate.
Qed.

Lemma rate_limit_sleeps_server_delay_then_backoff_witness :
  exists rest,
    [Sleep 2000; Sleep 1500; Send (mkRequest GET "e" []) 3] =
    Sleep (retry_after_ms_of (Some "2"))
    :: Sleep (calculate_backoff_delay (mkConfig "collab" "disc" 3 1000 30000) 2 ((fun _ => 0) 2%nat))
    :: Send (mkRequest GET "e" []) 3 :: rest.
Proof.
  apply (rate_limit_sleeps_server_delay_then_backoff (mkConfig "collab" "disc" 3 1000 30000)
    (fun _ k => if (k =? 2)%nat then Some (mkResponse 429 (Some "2") "" false)
                else if (k =? 1)%nat then Some (mkResponse 500 None "" false)
                else Some (mkResponse 200 None "{}" true))
    (fun _ => 0) Examples.token_granted (mkRequest GET "e" []) (mkClient (Some "tok") false [])
    [Send (mkRequest GET "e" []) 1; Sleep 750]
    [Sleep 2000; Sleep 1500; Send (mkRequest GET "e" []) 3] 2 (Some "2") "" false).
  - simpl. lia.
  - reflexivity.
  - vm_compute. reflexivity.
Defined.

(** C1 as stated fails: a GET answered by [429, Retry-After: 2] then [200]
    sleeps 2000 ms and then the 750 ms backoff, 2750 ms in total, before
    its second attempt. *)
Lemma rate_limit_delay_not_instead_of_backoff :
  events (snd (make_get_request (mkConfig "collab" "disc" 3 1000 30000)
      (fun _ k => if (k =? 1)%nat then Some (mkResponse 429 (Some "2") "" false)
                  else Some (mkResponse 200 None "{}" true))
      (fun _ => 0) Examples.token_granted "e" (mkClient (Some "tok") false []))) =
    [Send (mkRequest GET "e" []) 1; Sleep 2000; Sleep 750; Send (mkRequest GET "e" []) 2] /\
  total_sleep [Sleep 2000; Sleep 750] = 2750 /\ 2750 <> 2000.
Proof.
  split; [vm_compute; reflexivity|].
  split; [reflexivity|]. discriminate.
Qed.

Lemma replace_discovery_playlist_empty_rejected_witness :
  replace_discovery_playlist (mkConfig "collab" "disc" 3 1000 30000)
    (fun _ _ => Some (mkResponse 200 None "{}" true)) (fun _ => 0) Examples.token_granted
    (fun _ => "") [] (mkClient (Some "tok") false []) =
    (Err (ReplaceTracksFailed "Cannot replace playlist with empty track list"),
     mkClient (Some "tok") false []) /\
  exists rest,
    events (snd (replace_discovery_playlist (mkConfig "collab" "disc" 3 1000 30000)
      (fun _ _ => Some (mkResponse 200 None "{}" true)) (fun _ => 0) Examples.token_granted
      (fun _ => "") ["spotify:track:abc"] (mkClient (Some "tok") false []))) =
    ([] ++ Send (mkRequest PUT (tracks_endpoint "disc") ["spotify:track:abc"]) 1 :: rest)%list.
Proof.
  apply (replace_discovery_playlist_empty_rejected (mkConfig "collab" "disc" 3 1000 30000)
    (fun _ _ => Some (mkResponse 200 None "{}" true)) (fun _ => 0) Examples.token_granted
    (fun _ => "") (mkClient (Some "tok") false []) ["spotify:track:abc"] "tok").
  - discriminate.
  - reflexivity.
  - reflexivity.
  - reflexivity.
Defined.

End ClientWitnesses.

(** * Properties of the playlist store *)

Section StoreFacts.
Import Store.

Lemma add_calls_nil s : add_calls s [] = s.
Proof. destruct s; unfold add_calls; simpl. now rewrite app_nil_r. Qed.

Lemma add_calls_app s l1 l2 : add_calls (add_calls s l1) l2 = add_calls s (l1 ++ l2).
Proof. destruct s; unfold add_calls; simpl. now rewrite app_assoc. Qed.

Lemma log_call_add_calls a s : log_call a s = add_calls s [a].
Proof. reflexivity. Qed.

Lemma api_get_page_ok pl off lim s :
  page_failure s = None ->
  api_get_page pl off lim s =
    (Ok (firstn lim (skipn off (playlists s pl))), add_calls s [GetPage pl off lim]).
Proof. intros H. unfold api_get_page. simpl. now rewrite H. Qed.

Lemma skipn_page off (l : list PlaylistItem) :
  skipn off l = (firstn PAGE_LIMIT (skipn off l) ++ skipn (off + PAGE_LIMIT) l)%list.
Proof.
  rewrite <- (firstn_skipn PAGE_LIMIT (skipn off l)) at 1.
  now rewrite skipn_skipn, Nat.add_comm.
Qed.

Lemma short_page off (l : list PlaylistItem) :
  (List.length (firstn PAGE_LIMIT (skipn off l)) < PAGE_LIMIT)%nat ->
  firstn PAGE_LIMIT (skipn off l) = skipn off l.
Proof.
  intros H. rewrite length_firstn in H. apply firstn_all2. lia.
Qed.

Lemma write_count_app l1 l2 : write_count (l1 ++ l2) = (write_count l1 + write_count l2)%nat.
Proof. unfold write_count. now rewrite filter_app, length_app. Qed.

Lemma write_count_page_calls pl off k : write_count (page_calls pl off k) = 0%nat.
Proof. revert off. induction k as [|k IH]; intros off; [reflexivity|]. apply IH. Qed.

Lemma length_page_calls pl off k : List.length (page_calls pl off k) = k.
Proof. revert off. induction k as [|k IH]; intros off; simpl; [reflexivity|]. now rewrite IH. Qed.

(** The duplicate-check loop, with enough pages of fuel: it answers whether
    the URI occurs from [off] on, and only issues page requests. *)
Lemma check_loop_spec f pl u off s :
  page_failure s = None ->
  (List.length (playlists s pl) < off + PAGE_LIMIT * f)%nat ->
  exists k, check_loop f pl u off s =
    (Ok (existsb (item_has_uri u) (skipn off (playlists s pl))),
     add_calls s (page_calls pl off k)).
Proof.
  revert off s. induction f as [|f IH]; intros off s Hpf Hlen; simpl.
  - exists 0%nat. rewrite skipn_all2 by lia. simpl. now rewrite add_calls_nil.
  - rewrite api_get_page_ok by exact Hpf.
    set (L := playlists s pl) in *.
    set (page := firstn PAGE_LIMIT (skipn off L)).
    destruct (existsb (item_has_uri u) page) eqn:Ex.
    + exists 1%nat. f_equal. f_equal.
      rewrite (skipn_page off L), existsb_app. fold page. now rewrite Ex.
    + destruct (List.length page <? PAGE_LIMIT)%nat eqn:Es.
      * exists 1%nat. apply Nat.ltb_lt in Es.
        assert (Hp : page = skipn off L) by (apply short_page; exact Es).
        rewrite Hp in Ex. now rewrite Ex.
      * apply Nat.ltb_ge in Es.
        assert (Hlen' : (List.length (playlists (add_calls s [GetPage pl off PAGE_LIMIT]) pl)
                         < off + PAGE_LIMIT + PAGE_LIMIT * f)%nat).
        { change (playlists (add_calls s [GetPage pl off PAGE_LIMIT]) pl) with L.
          unfold PAGE_LIMIT in *. lia. }
        destruct (IH (off + PAGE_LIMIT)%nat (add_calls s [GetPage pl off PAGE_LIMIT]) Hpf Hlen')
          as [k Hk].
        exists (S k). rewrite Hk. simpl. fold L.
        rewrite add_calls_app. f_equal. f_equal.
        rewrite (skipn_page off L), existsb_app. fold page. now rewrite Ex.
Qed.

Lemma check_track_exists_spec pl u s :
  page_failure s = None ->
  exists k, check_track_exists_in_playlist pl u s =
    (Ok (existsb (item_has_uri u) (playlists s pl)), add_calls s (page_calls pl 0 k)).
Proof.
  intros Hpf. unfold check_track_exists_in_playlist.
  apply (check_loop_spec _ pl u 0 s Hpf). unfold PAGE_LIMIT. lia.
Qed.

Lemma item_tracks_app l1 l2 : item_tracks (l1 ++ l2) = (item_tracks l1 ++ item_tracks l2)%list.
Proof. unfold item_tracks. apply flat_map_app. Qed.

(** The listing loop: with enough fuel it returns every parsed track from
    [off] on, in order, after exactly [(len - off) / 100 + 1] page requests. *)
Lemma tracks_loop_spec f pl off acc s :
  page_failure s = None ->
  (List.length (playlists s pl) - off < PAGE_LIMIT * f)%nat ->
  tracks_loop f pl off acc s =
    (Ok (acc ++ item_tracks (skipn off (playlists s pl)))%list,
     add_calls s (page_calls pl off (S ((List.length (playlists s pl) - off) / PAGE_LIMIT)))).
Proof.
  revert off acc s. induction f as [|f IH]; intros off acc s Hpf Hlen; [lia|].
  cbn [tracks_loop]. rewrite api_get_page_ok by exact Hpf.
  set (L := playlists s pl) in *.
  set (page := firstn PAGE_LIMIT (skipn off L)).
  destruct (List.length page <? PAGE_LIMIT)%nat eqn:Es.
  - apply Nat.ltb_lt in Es. pose proof Es as Es'.
    unfold page in Es'. rewrite length_firstn, length_skipn in Es'.
    assert (Hp : page = skipn off L) by (apply short_page; exact Es).
    rewrite Hp.
    rewrite (Nat.div_small (List.length L - off) PAGE_LIMIT) by (unfold PAGE_LIMIT in *; lia).
    reflexivity.
  - apply Nat.ltb_ge in Es.
    assert (Hge : (PAGE_LIMIT <= List.length L - off)%nat).
    { unfold page in Es. rewrite length_firstn, length_skipn in Es. lia. }
    assert (Hlen' : (List.length (playlists (add_calls s [GetPage pl off PAGE_LIMIT]) pl)
                     - (off + PAGE_LIMIT) < PAGE_LIMIT * f)%nat).
    { change (playlists (add_calls s [GetPage pl off PAGE_LIMIT]) pl) with L.
      unfold PAGE_LIMIT in *. lia. }
    rewrite (IH (off + PAGE_LIMIT)%nat _ (add_calls s [GetPage pl off PAGE_LIMIT]) Hpf Hlen').
    change (playlists (add_calls s [GetPage pl off PAGE_LIMIT]) pl) with L.
    unfold page. rewrite add_calls_app.
    rewrite <- app_assoc, <- item_tracks_app, <- skipn_page.
    replace ((List.length L - off) / PAGE_LIMIT)%nat
      with (S ((List.length L - (off + PAGE_LIMIT)) / PAGE_LIMIT))%nat.
    + reflexivity.
    + replace (List.length L - off)%nat
        with (List.length L - (off + PAGE_LIMIT) + 1 * PAGE_LIMIT)%nat by lia.
      rewrite Nat.div_add by (unfold PAGE_LIMIT; lia). lia.
Qed.

Lemma item_tracks_well_formed (L : list TrackInfo) : item_tracks (map well_formed_item L) = L.
Proof. induction L as [|t L IH]; simpl; [reflexivity|]. now rewrite IH. Qed.

Lemma strip_prefix_app p rest : strip_prefix p (p ++ rest) = Some rest.
Proof.
  induction p as [|a p IH]; simpl; [reflexivity|].
  now rewrite Ascii.eqb_refl.
Qed.

Lemma extract_track_id_ok tid :
  extract_track_id_from_uri ("spotify:track:" ++ tid) = Ok tid.
Proof. unfold extract_track_id_from_uri. now rewrite strip_prefix_app. Qed.

Lemma get_track_info_found tid ti s :
  find_track tid (catalog s) = Some ti ->
  get_track_info tid s = (Ok ti, add_calls s [GetTrack tid]).
Proof. intros H. unfold get_track_info, api_get_track. simpl. now rewrite H. Qed.

Lemma find_track_by_uri_exists tid ti cat :
  find_track tid cat = Some ti ->
  exists t', find_track_by_uri (uri ti) cat = Some t' /\ uri t' = uri ti.
Proof.
  intros H. apply find_some in H as [Hin _].
  unfold find_track_by_uri.
  destruct (find (fun t => String.eqb (uri t) (uri ti)) cat) as [t'|] eqn:E.
  - apply find_some in E as [_ E]. apply String.eqb_eq in E. eauto.
  - pose proof (find_none _ _ E ti Hin) as F. simpl in F.
    now rewrite String.eqb_refl in F.
Qed.

(** [add_track_to_collaborative] for a track the playlist does not hold:
    one POST, and the playlist gains an entry with the URI. *)
Lemma add_track_new cfg dbg tid ti s :
  find_track tid (catalog s) = Some ti ->
  uri ti = ("spotify:track:" ++ tid) ->
  page_failure s = None ->
  existsb (item_has_uri (uri ti)) (playlists s (collaborative_playlist_id cfg)) = false ->
  exists l,
    write_count l = 1%nat /\
    add_track_to_collaborative cfg dbg ("spotify:track:" ++ tid) s =
    match post_failure s with
    | Some e =>
        (Ok (Failed ("Failed to add track '" ++ name ti ++ "': " ++ dbg e)), add_calls s l)
    | None =>
        (Ok (Added ti),
         mkServer (catalog s)
           (fun p => if String.eqb p (collaborative_playlist_id cfg)
                     then (playlists s p ++ [mkItem (Some (uri ti)) (find_track_by_uri (uri ti) (catalog s))])%list
                     else playlists s p)
           (missing_track_error s) (page_failure s) (post_failure s) (calls s ++ l)%list)
    end.
Proof.
  intros Hfind Huri Hpf Hnew.
  set (pl := collaborative_playlist_id cfg) in *.
  unfold add_track_to_collaborative. rewrite extract_track_id_ok.
  rewrite (get_track_info_found tid ti s Hfind).
  set (s1 := add_calls s [GetTrack tid]).
  rewrite <- Huri.
  destruct (check_track_exists_spec pl (uri ti) s1 Hpf) as [k1 Hk1]. fold pl. rewrite Hk1.
  change (playlists s1 pl) with (playlists s pl). rewrite Hnew.
  unfold add_track_to_playlist.
  set (s2 := add_calls s1 (page_calls pl 0 k1)).
  destruct (check_track_exists_spec pl (uri ti) s2 Hpf) as [k2 Hk2]. rewrite Hk2.
  change (playlists s2 pl) with (playlists s pl). rewrite Hnew.
  set (s3 := add_calls s2 (page_calls pl 0 k2)).
  destruct (find_track_by_uri_exists tid ti (catalog s) Hfind) as [t' [Ht' Hut']].
  exists ([GetTrack tid] ++ page_calls pl 0 k1 ++ page_calls pl 0 k2 ++ [PostTracks pl [uri ti]])%list.
  rewrite !write_count_app, !write_count_page_calls.
  unfold api_post_tracks. cbn [post_failure log_call].
  change (post_failure s3) with (post_failure s).
  destruct (post_failure s) as [e|] eqn:Epf.
  - split; [reflexivity|].
    unfold s3, s2, s1. rewrite log_call_add_calls, !add_calls_app.
    now rewrite <- ?app_assoc.
  - split; [reflexivity|].
    change (catalog s3) with (catalog s). simpl. rewrite Ht'. cbn.
    rewrite Hut'.
    unfold s3, s2, s1. unfold add_calls. simpl.
    now rewrite <- !app_assoc.
Qed.

(** [add_track_to_collaborative] for a track the playlist already holds:
    no POST. *)
Lemma add_track_present cfg dbg tid ti s :
  find_track tid (catalog s) = Some ti ->
  page_failure s = None ->
  existsb (item_has_uri ("spotify:track:" ++ tid)) (playlists s (collaborative_playlist_id cfg)) = true ->
  exists l,
    write_count l = 0%nat /\
    add_track_to_collaborative cfg dbg ("spotify:track:" ++ tid) s =
      (Ok (AlreadyExists ti), add_calls s l).
Proof.
  intros Hfind Hpf Hin.
  unfold add_track_to_collaborative. rewrite extract_track_id_ok.
  rewrite (get_track_info_found tid ti s Hfind).
  destruct (check_track_exists_spec (collaborative_playlist_id cfg) ("spotify:track:" ++ tid)
              (add_calls s [GetTrack tid]) Hpf) as [k Hk].
  rewrite Hk. change (playlists (add_calls s [GetTrack tid]) (collaborative_playlist_id cfg))
    with (playlists s (collaborative_playlist_id cfg)).
  rewrite Hin.
  exists ([GetTrack tid] ++ page_calls (collaborative_playlist_id cfg) 0 k)%list.
  rewrite write_count_app, write_count_page_calls. split; [reflexivity|].
  now rewrite add_calls_app.
Qed.

End StoreFacts.

Section StoreClaims.
Import Store.

(** C3 (as the code does it): for a playlist of [N] well-formed entries,
    [get_playlist_tracks] returns the [N] tracks in order after exactly
    [N / 100 + 1] page requests: a full last page costs one more request. *)
Theorem get_playlist_tracks_pages (pl : string) (L : list TrackInfo) (s : Server)
  (Hpl : playlists s pl = map well_formed_item L)
  (Hpf : page_failure s = None) :
  fst (get_playlist_tracks pl s) = Ok L /\
  calls (snd (get_playlist_tracks pl s)) =
    (calls s ++ page_calls pl 0 (List.length L / PAGE_LIMIT + 1))%list /\
  List.length (page_calls pl 0 (List.length L / PAGE_LIMIT + 1)) = (List.length L / PAGE_LIMIT + 1)%nat.
Proof.
  unfold get_playlist_tracks.
  rewrite tracks_loop_spec; [| exact Hpf | unfold PAGE_LIMIT; lia].
  rewrite Hpl. change (skipn 0 ?l) with l.
  rewrite length_map, item_tracks_well_formed, Nat.sub_0_r, Nat.add_1_r.
  split; [reflexivity|]. split; [reflexivity|]. apply length_page_calls.
Qed.

(** C4: appending the same new URI twice makes exactly one playlist write;
    the first call answers [Added], the second [AlreadyExists] and writes
    nothing. *)
Theorem append_twice_one_write (cfg : BotConfig) (dbg : SpotifyError -> string)
  (tid : string) (ti : TrackInfo) (s : Server)
  (Hfind : find_track tid (catalog s) = Some ti)
  (Huri : uri ti = ("spotify:track:" ++ tid))
  (Hpf : page_failure s = None)
  (Hpost : post_failure s = None)
  (Hnew : existsb (item_has_uri ("spotify:track:" ++ tid))
            (playlists s (collaborative_playlist_id cfg)) = false) :
  fst (add_track_to_collaborative cfg dbg ("spotify:track:" ++ tid) s) = Ok (Added ti) /\
  fst (add_track_to_collaborative cfg dbg ("spotify:track:" ++ tid)
         (snd (add_track_to_collaborative cfg dbg ("spotify:track:" ++ tid) s)))
    = Ok (AlreadyExists ti) /\
  write_count (calls (snd (add_track_to_collaborative cfg dbg ("spotify:track:" ++ tid) s)))
    = S (write_count (calls s)) /\
  write_count (calls (snd (add_track_to_collaborative cfg dbg ("spotify:track:" ++ tid)
         (snd (add_track_to_collaborative cfg dbg ("spotify:track:" ++ tid) s)))))
    = write_count (calls (snd (add_track_to_collaborative cfg dbg ("spotify:track:" ++ tid) s))).
Proof.
  rewrite <- Huri in Hnew.
  destruct (add_track_new cfg dbg tid ti s Hfind Huri Hpf Hnew) as [l [Hl Heq]].
  rewrite Hpost in Heq. rewrite Heq. cbn [fst snd calls].
  set (s' := mkServer _ _ _ _ _ _).
  assert (Hin : existsb (item_has_uri ("spotify:track:" ++ tid))
                  (playlists s' (collaborative_playlist_id cfg)) = true).
  { unfold s'. cbn [playlists]. rewrite String.eqb_refl, existsb_app, <- Huri.
    cbn [existsb item_has_uri item_uri]. rewrite String.eqb_refl.
    now rewrite orb_true_r. }
  destruct (add_track_present cfg dbg tid ti s' Hfind Hpf Hin) as [l' [Hl' Heq']].
  rewrite Heq'. cbn [fst snd].
  split; [reflexivity|]. split; [reflexivity|].
  unfold add_calls. cbn [calls]. unfold s'. cbn [calls].
  rewrite !write_count_app, Hl, Hl'. split; lia.
Qed.

(** C2 (as the code does it): lookup and duplicate-check errors come back as
    [Err (AddTrackFailed _)] with the Spotify error rendered in the message;
    an error of the add write comes back as [Ok (Failed _)], not as an
    [Err]; a track already present is [Ok (AlreadyExists _)], and the calls
    made for it hold no write (the playlists are left as they were). *)
Theorem add_track_to_collaborative_error_outcomes (cfg : BotConfig)
  (dbg : SpotifyError -> string) (tid : string) (s : Server) :
  (find_track tid (catalog s) = None ->
     fst (add_track_to_collaborative cfg dbg ("spotify:track:" ++ tid) s) =
       Err (match missing_track_error s with
            | TrackNotFound t => AddTrackFailed ("Track not found: " ++ t)
            | e => AddTrackFailed (dbg e)
            end)) /\
  (forall ti e, find_track tid (catalog s) = Some ti -> page_failure s = Some e ->
     fst (add_track_to_collaborative cfg dbg ("spotify:track:" ++ tid) s) =
       Err (AddTrackFailed ("Failed to check for duplicates: " ++ dbg e))) /\
  (forall ti e, find_track tid (catalog s) = Some ti -> uri ti = ("spotify:track:" ++ tid) ->
     page_failure s = None ->
     existsb (item_has_uri ("spotify:track:" ++ tid)) (playlists s (collaborative_playlist_id cfg)) = false ->
     post_failure s = Some e ->
     fst (add_track_to_collaborative cfg dbg ("spotify:track:" ++ tid) s) =
       Ok (Failed ("Failed to add track '" ++ name ti ++ "': " ++ dbg e))) /\
  (forall ti, find_track tid (catalog s) = Some ti -> page_failure s = None ->
     existsb (item_has_uri ("spotify:track:" ++ tid)) (playlists s (collaborative_playlist_id cfg)) = true ->
     exists l,
       add_track_to_collaborative cfg dbg ("spotify:track:" ++ tid) s =
         (Ok (AlreadyExists ti), add_calls s l) /\
       write_count l = 0%nat).
Proof.
  split; [|split; [|split]].
  - intros Hnone. unfold add_track_to_collaborative. rewrite extract_track_id_ok.
    unfold get_track_info, api_get_track. cbn [log_call catalog]. rewrite Hnone.
    cbn [fst missing_track_error log_call]. destruct (missing_track_error s); reflexivity.
  - intros ti e Hfind Hpf. unfold add_track_to_collaborative. rewrite extract_track_id_ok.
    rewrite (get_track_info_found tid ti s Hfind).
    unfold check_track_exists_in_playlist. cbn [check_loop].
    unfold api_get_page. cbn [log_call page_failure add_calls]. rewrite Hpf.
    reflexivity.
  - intros ti e Hfind Huri Hpf Hnew Hpost.
    rewrite <- Huri in Hnew.
    destruct (add_track_new cfg dbg tid ti s Hfind Huri Hpf Hnew) as [l [_ Heq]].
    rewrite Heq, Hpost. reflexivity.
  - intros ti Hfind Hpf Hin.
    destruct (add_track_present cfg dbg tid ti s Hfind Hpf Hin) as [l [Hl Heq]].
    exists l. split; [exact Heq | exact Hl].
Qed.

End StoreClaims.

(** * Properties of the discovery generator *)

Section DiscoveryFacts.
Import Discovery.

Lemma recent_tracks_window all_tracks :
  recent_tracks all_tracks = last_window all_tracks \/
  recent_tracks all_tracks = rev (last_window all_tracks).
Proof.
  unfold recent_tracks, last_window.
  destruct (List.length all_tracks <=? RECENT_TRACKS_POOL_SIZE)%nat eqn:E.
  - left. apply Nat.leb_le in E. unfold RECENT_TRACKS_POOL_SIZE in *.
    now replace (List.length all_tracks - 50)%nat with 0%nat by lia.
  - right. apply firstn_rev.
Qed.

Lemma length_recent_tracks all_tracks :
  List.length (recent_tracks all_tracks) = Nat.min 50 (List.length all_tracks).
Proof.
  assert (Hw : List.length (last_window all_tracks) = Nat.min 50 (List.length all_tracks)).
  { unfold last_window, RECENT_TRACKS_POOL_SIZE. rewrite length_skipn. lia. }
  destruct (recent_tracks_window all_tracks) as [-> | ->];
    [|rewrite length_rev]; exact Hw.
Qed.

Lemma in_recent_tracks all_tracks t :
  In t (recent_tracks all_tracks) -> In t (last_window all_tracks).
Proof.
  destruct (recent_tracks_window all_tracks) as [-> | ->]; [auto|].
  apply in_rev.
Qed.

Lemma nodup_recent_tracks all_tracks :
  NoDup (map id (last_window all_tracks)) -> NoDup (map id (recent_tracks all_tracks)).
Proof.
  destruct (recent_tracks_window all_tracks) as [-> | ->]; [auto|].
  rewrite map_rev. apply NoDup_rev.
Qed.

Lemma existsb_eqb_false x l :
  existsb (String.eqb x) l = false -> ~ In x l.
Proof.
  intros H Hin. assert (existsb (String.eqb x) l = true) as Ht.
  { apply existsb_exists. exists x. split; [exact Hin | apply String.eqb_refl]. }
  congruence.
Qed.

Lemma accept_inv rs : forall seen acc,
  NoDup (map id acc) -> (forall x, In x (map id acc) -> In x seen) ->
  (List.length acc < 20)%nat ->
  NoDup (map id (snd (accept rs seen acc))) /\
  (forall x, In x (map id (snd (accept rs seen acc))) -> In x (fst (accept rs seen acc))) /\
  (List.length (snd (accept rs seen acc)) <= 20)%nat /\
  (forall t, In t (snd (accept rs seen acc)) -> In t acc \/ In t rs).
Proof.
  induction rs as [|t rest IH]; intros seen acc Hnd Hseen Hlen.
  - cbn. repeat split; auto; lia.
  - cbn [accept]. destruct (existsb (String.eqb (id t)) seen) eqn:Eex.
    + destruct (IH seen acc Hnd Hseen Hlen) as (H1 & H2 & H3 & H4).
      repeat split; auto.
      intros t' Ht'. destruct (H4 t' Ht'); [left | right; right]; auto.
    + apply existsb_eqb_false in Eex.
      assert (Hnd' : NoDup (map id (acc ++ [t])%list)).
      { rewrite map_app. apply NoDup_app; [exact Hnd | repeat constructor; auto |].
        intros a Ha [Heq | []]. subst a. apply Eex, Hseen, Ha. }
      assert (Hseen' : forall x, In x (map id (acc ++ [t])%list) -> In x (id t :: seen)).
      { intros x. rewrite map_app, in_app_iff. intros [Hx | [Hx | []]].
        - right. now apply Hseen.
        - now left. }
      rewrite length_app in *. cbn [List.length] in *.
      destruct (20 <=? List.length acc + 1)%nat eqn:E20.
      * cbn [fst snd]. repeat split; auto; [rewrite ?length_app; cbn [List.length]; lia|].
        intros t' Ht'. apply in_app_iff in Ht'.
        destruct Ht' as [Ht' | [Ht' | []]]; [left; exact Ht' | right; left; exact Ht'].
      * apply Nat.leb_gt in E20.
        destruct (IH (id t :: seen) (acc ++ [t])%list Hnd' Hseen') as (H1 & H2 & H3 & H4);
          [rewrite length_app; cbn; lia|].
        repeat split; auto.
        intros t' Ht'. destruct (H4 t' Ht') as [Hin | Hin]; [|right; right; exact Hin].
        apply in_app_iff in Hin. destruct Hin as [Hin | [Hin | []]];
          [left; exact Hin | right; left; exact Hin].
Qed.

Lemma seeds_loop_inv ti st seeds : forall i seen acc,
  NoDup (map id acc) -> (forall x, In x (map id acc) -> In x seen) ->
  (List.length acc < 20)%nat ->
  NoDup (map id (seeds_loop ti st i seeds seen acc)) /\
  (List.length (seeds_loop ti st i seeds seen acc) <= 20)%nat /\
  (forall t, In t (seeds_loop ti st i seeds seen acc) -> In t acc \/
     exists j sid info results,
       nth_error seeds j = Some sid /\ ti (i + j)%nat sid = Ok info /\
       st (i + j)%nat (search_query info) = Ok results /\ In t (skipn 1 results)).
Proof.
  induction seeds as [|sid rest IH]; intros i seen acc Hnd Hseen Hlen.
  - cbn. repeat split; auto. lia.
  - assert (Hnext : forall seen' acc',
      NoDup (map id acc') -> (forall x, In x (map id acc') -> In x seen') ->
      (List.length acc' < 20)%nat ->
      NoDup (map id (seeds_loop ti st (S i) rest seen' acc')) /\
      (List.length (seeds_loop ti st (S i) rest seen' acc') <= 20)%nat /\
      (forall t, In t (seeds_loop ti st (S i) rest seen' acc') -> In t acc' \/
         exists j sid' info results,
           nth_error (sid :: rest) j = Some sid' /\ ti (i + j)%nat sid' = Ok info /\
           st (i + j)%nat (search_query info) = Ok results /\ In t (skipn 1 results))).
    { intros seen' acc' H1 H2 H3.
      destruct (IH (S i) seen' acc' H1 H2 H3) as (G1 & G2 & G3).
      repeat split; auto.
      intros t Ht. destruct (G3 t Ht) as [G | (j & sid' & info & results & E1 & E2 & E3 & E4)];
        [now left|].
      right. exists (S j), sid', info, results.
      rewrite Nat.add_succ_r. auto. }
    cbn [seeds_loop].
    destruct (ti i sid) as [info|e] eqn:Eti; [|apply Hnext; auto].
    destruct (st i (search_query info)) as [results|e] eqn:Est; [|apply Hnext; auto].
    destruct (accept_inv (skipn 1 results) seen acc Hnd Hseen Hlen) as (A1 & A2 & A3 & A4).
    destruct (accept (skipn 1 results) seen acc) as [seen' acc'] eqn:Ea.
    cbn [fst snd] in A1, A2, A3, A4.
    assert (Hprov : forall t, In t acc' -> In t acc \/
              exists j sid' info' results',
                nth_error (sid :: rest) j = Some sid' /\ ti (i + j)%nat sid' = Ok info' /\
                st (i + j)%nat (search_query info') = Ok results' /\ In t (skipn 1 results')).
    { intros t Ht. destruct (A4 t Ht) as [G | G]; [now left|].
      right. exists 0%nat, sid, info, results. rewrite Nat.add_0_r. auto. }
    destruct (20 <=? List.length acc')%nat eqn:E20.
    + repeat split; auto.
    + apply Nat.leb_gt in E20.
      destruct (Hnext seen' acc' A1 A2 E20) as (G1 & G2 & G3).
      repeat split; auto.
      intros t Ht. destruct (G3 t Ht) as [G | G]; [|now right].
      now apply Hprov.
Qed.

(** Positions drawn in [recent_tracks] are distinct positions of the
    window [last_window], read backwards when the listing has more than 50
    tracks. *)
Lemma seed_positions all_tracks picks :
  NoDup picks ->
  (forall i, In i picks -> (i < List.length (recent_tracks all_tracks))%nat) ->
  exists ps,
    NoDup ps /\ (forall i, In i ps -> (i < List.length (last_window all_tracks))%nat) /\
    map id (map (fun i => nth i (recent_tracks all_tracks) default_track) picks) =
    map (fun i => id (nth i (last_window all_tracks) default_track)) ps.
Proof.
  intros Hnd Hlt.
  set (W := last_window all_tracks).
  destruct (recent_tracks_window all_tracks) as [HW|HW]; rewrite HW in Hlt |- *; fold W in Hlt |- *.
  - exists picks. split; [exact Hnd|]. split; [exact Hlt|]. now rewrite map_map.
  - rewrite length_rev in Hlt.
    exists (map (fun i => List.length W - S i)%nat picks).
    split; [|split].
    + apply NoDup_map_NoDup_ForallPairs; [|exact Hnd].
      intros i j Hi Hj Heq. apply Hlt in Hi. apply Hlt in Hj. lia.
    + intros i Hi. apply in_map_iff in Hi as [j [<- Hj]]. apply Hlt in Hj. lia.
    + rewrite !map_map. apply map_ext_in. intros i Hi.
      rewrite rev_nth by (apply Hlt; exact Hi). reflexivity.
Qed.

End DiscoveryFacts.

Section DiscoveryClaims.
Import Discovery.

Lemma nodup_nat_spec l : nodup_nat l = true -> NoDup l.
Proof.
  induction l as [|x r IH]; cbn; intros H; [constructor|].
  apply andb_prop in H as [H1 H2]. constructor; [|now apply IH].
  intros Hin. apply negb_true_iff in H1.
  assert (existsb (Nat.eqb x) r = true) as Ht.
  { apply existsb_exists. exists x. split; [exact Hin | apply Nat.eqb_refl]. }
  congruence.
Qed.

(** C8 (as the code does it): on a non-empty listing of [N] tracks and a
    valid draw, [select_seed_tracks] returns exactly [min 5 (min 50 N)] ids:
    the ids of the tracks at distinct positions [ps] of the window of the
    last [min 50 N] tracks (so each is the id of a track of that window);
    the ids are distinct when the window's ids are. *)
Theorem select_seed_tracks_window (all_tracks : list TrackInfo)
  (choose : list TrackInfo -> nat -> list nat)
  (Hne : (0 < List.length all_tracks)%nat)
  (Hch : choice_ok (List.length (recent_tracks all_tracks))
           (Nat.min MAX_SEED_TRACKS (List.length (recent_tracks all_tracks)))
           (choose (recent_tracks all_tracks)
              (Nat.min MAX_SEED_TRACKS (List.length (recent_tracks all_tracks)))) = true) :
  exists ids,
    select_seed_tracks all_tracks choose = Ok ids /\
    List.length ids = Nat.min 5 (Nat.min 50 (List.length all_tracks)) /\
    (exists ps,
       NoDup ps /\ (forall i, In i ps -> (i < List.length (last_window all_tracks))%nat) /\
       ids = map (fun i => id (nth i (last_window all_tracks) default_track)) ps) /\
    (forall x, In x ids -> exists t, In t (last_window all_tracks) /\ id t = x) /\
    (NoDup (map id (last_window all_tracks)) -> NoDup ids).
Proof.
  set (R := recent_tracks all_tracks) in *.
  set (picks := choose R (Nat.min MAX_SEED_TRACKS (List.length R))) in *.
  unfold choice_ok in Hch. apply andb_prop in Hch as [Hch Hlt].
  apply andb_prop in Hch as [Hnd Hlen].
  apply nodup_nat_spec in Hnd. apply Nat.eqb_eq in Hlen.
  rewrite forallb_forall in Hlt.
  assert (HR : List.length R = Nat.min 50 (List.length all_tracks))
    by apply length_recent_tracks.
  exists (map id (map (fun i => nth i R default_track) picks)).
  split.
  { unfold select_seed_tracks. destruct all_tracks; [cbn in Hne; lia|]. reflexivity. }
  split.
  { rewrite !length_map, Hlen, HR. reflexivity. }
  split.
  { apply seed_positions; [exact Hnd|].
    intros i Hi. apply Nat.ltb_lt. now apply Hlt. }
  split.
  - intros x Hx. rewrite map_map in Hx. apply in_map_iff in Hx as [i [Hi Hin]].
    exists (nth i R default_track). split; [|exact Hi].
    apply in_recent_tracks. apply nth_In.
    apply Nat.ltb_lt. now apply Hlt.
  - intros Hw. apply nodup_recent_tracks in Hw. fold R in Hw.
    rewrite map_map. apply NoDup_map_NoDup_ForallPairs; [|exact Hnd].
    intros i j Hi Hj Heq.
    apply Hlt, Nat.ltb_lt in Hi. apply Hlt, Nat.ltb_lt in Hj.
    rewrite <- !(map_nth id R default_track) in Heq.
    apply (NoDup_nth (map id R) (id default_track)); auto; rewrite length_map; auto.
Qed.

(** C9 (as the code does it): a successful [get_recommendations] returns a
    non-empty list of at most 20 tracks with distinct ids, each of which was
    returned at a position after the first by the search of some seed whose
    lookup succeeded. *)
Theorem get_recommendations_candidates
  (track_info : nat -> string -> result TrackInfo SpotifyError)
  (search_tracks : nat -> string -> result (list TrackInfo) SpotifyError)
  (seeds : list string) (cands : list TrackInfo)
  (H : get_recommendations track_info search_tracks seeds = Ok cands) :
  cands <> [] /\
  NoDup (map id cands) /\
  (List.length cands <= 20)%nat /\
  (forall t, In t cands ->
     exists j sid info results,
       nth_error seeds j = Some sid /\ track_info j sid = Ok info /\
       search_tracks j (search_query info) = Ok results /\ In t (skipn 1 results)).
Proof.
  unfold get_recommendations in H. destruct seeds as [|sid rest]; [discriminate|].
  destruct (seeds_loop_inv track_info search_tracks (sid :: rest) 0 [] [])
    as (G1 & G2 & G3); [constructor | intros x [] | cbn; lia |].
  destruct (seeds_loop track_info search_tracks 0 (sid :: rest) [] []) as [|t0 l] eqn:E;
    [discriminate|].
  injection H as <-.
  split; [discriminate|]. split; [exact G1|]. split; [exact G2|].
  intros t Ht. destruct (G3 t Ht) as [[] | G]. exact G.
Qed.

End DiscoveryClaims.

(** * Witnesses and counterexamples of the store and discovery claims *)

Section StoreWitnesses.
Import Store Examples.

Lemma get_playlist_tracks_pages_witness :
  fst (get_playlist_tracks "pl" (paged_store 250)) = Ok (repeat tA 250) /\
  calls (snd (get_playlist_tracks "pl" (paged_store 250))) =
    (calls (paged_store 250) ++ page_calls "pl" 0 (List.length (repeat tA 250) / PAGE_LIMIT + 1))%list /\
  List.length (page_calls "pl" 0 (List.length (repeat tA 250) / PAGE_LIMIT + 1)) =
    (List.length (repeat tA 250) / PAGE_LIMIT + 1)%nat.
Proof.
  apply (get_playlist_tracks_pages "pl" (repeat tA 250) (paged_store 250));
    vm_compute; reflexivity.
Defined.

(** C3 counterexample: a playlist of exactly 100 tracks costs two page
    requests, not [ceil (100 / 100) = 1]. *)
Lemma get_playlist_tracks_full_page_extra_request :
  fst (get_playlist_tracks "pl" (paged_store 100)) = Ok (repeat tA 100) /\
  calls (snd (get_playlist_tracks "pl" (paged_store 100))) =
    [GetPage "pl" 0 100; GetPage "pl" 100 100].
Proof. split; vm_compute; reflexivity. Qed.

Lemma append_twice_one_write_witness :
  fst (add_track_to_collaborative test_cfg debug_name ("spotify:track:" ++ "abc")
         (store_with None [])) = Ok (Added tA) /\
  fst (add_track_to_collaborative test_cfg debug_name ("spotify:track:" ++ "abc")
         (snd (add_track_to_collaborative test_cfg debug_name ("spotify:track:" ++ "abc")
                 (store_with None []))))
    = Ok (AlreadyExists tA) /\
  write_count (calls (snd (add_track_to_collaborative test_cfg debug_name
                             ("spotify:track:" ++ "abc") (store_with None []))))
    = S (write_count (calls (store_with None []))) /\
  write_count (calls (snd (add_track_to_collaborative test_cfg debug_name ("spotify:track:" ++ "abc")
         (snd (add_track_to_collaborative test_cfg debug_name ("spotify:track:" ++ "abc")
                 (store_with None []))))))
    = write_count (calls (snd (add_track_to_collaborative test_cfg debug_name
                                 ("spotify:track:" ++ "abc") (store_with None [])))).
Proof.
  apply (append_twice_one_write test_cfg debug_name "abc" tA (store_with None []));
    vm_compute; reflexivity.
Defined.

(** C2 counterexample: a network error of the add write comes back as
    [Ok (Failed _)], not as an [Err]. *)
Lemma add_track_write_error_not_propagated :
  fst (add_track_to_collaborative test_cfg debug_name "spotify:track:abc"
         (store_with (Some (NetworkError "connection reset")) [])) =
    Ok (Failed "Failed to add track 'Song': NetworkError").
Proof. vm_compute. reflexivity. Qed.

End StoreWitnesses.

Section DiscoveryWitnesses.
Import Discovery Examples.

Lemma select_seed_tracks_window_witness :
  exists ids,
    select_seed_tracks [tX; tY; tZ] choose_prefix = Ok ids /\
    List.length ids = Nat.min 5 (Nat.min 50 (List.length [tX; tY; tZ])) /\
    (exists ps,
       NoDup ps /\ (forall i, In i ps -> (i < List.length (last_window [tX; tY; tZ]))%nat) /\
       ids = map (fun i => id (nth i (last_window [tX; tY; tZ]) default_track)) ps) /\
    (forall x, In x ids -> exists t, In t (last_window [tX; tY; tZ]) /\ id t = x) /\
    (NoDup (map id (last_window [tX; tY; tZ])) -> NoDup ids).
Proof.
  apply (select_seed_tracks_window [tX; tY; tZ] choose_prefix);
    [cbn; lia | vm_compute; reflexivity].
Defined.

(** C8 counterexample: a listing holding the same track twice, with a valid
    draw of both positions, gives a duplicated seed id. *)
Lemma select_seed_tracks_duplicate_ids :
  choice_ok 2 2 (choose_prefix (recent_tracks [tA; tA]) 2) = true /\
  select_seed_tracks [tA; tA] choose_prefix = Ok ["abc"; "abc"] /\
  ~ NoDup ["abc"; "abc"].
Proof.
  split; [vm_compute; reflexivity|]. split; [vm_compute; reflexivity|].
  intros Hnd. inversion Hnd as [|x l Hx Hl]. apply Hx. left. reflexivity.
Qed.

Lemma get_recommendations_candidates_witness :
  [tY; tX] <> [] /\
  NoDup (map id [tY; tX]) /\
  (List.length [tY; tX] <= 20)%nat /\
  (forall t, In t [tY; tX] ->
     exists j sid info results,
       nth_error ["s1"; "s2"] j = Some sid /\ rec_track_info j sid = Ok info /\
       rec_search j (search_query info) = Ok results /\ In t (skipn 1 results)).
Proof.
  apply (get_recommendations_candidates rec_track_info rec_search ["s1"; "s2"] [tY; tX]).
  vm_compute. reflexivity.
Defined.

(** C9 counterexample: [tX], the first result of the first seed's search,
    is accepted from the second seed's search. *)
Lemma get_recommendations_keeps_first_result :
  rec_track_info 0 "s1" = Ok tA /\
  rec_search 0 (search_query tA) = Ok (tX :: [tY]) /\
  get_recommendations rec_track_info rec_search ["s1"; "s2"] = Ok [tY; tX] /\
  In tX [tY; tX].
Proof.
  split; [reflexivity|]. split; [reflexivity|]. split; [vm_compute; reflexivity|].
  right. left. reflexivity.
Qed.

End DiscoveryWitnesses.

(** * Further properties of the resilient client *)

Section ClientExtras.
Import Client.

Lemma request_loop_send_bound cfg server jit rok f : forall r a c,
  exists rest,
    events (snd (request_loop cfg server jit rok f r a c)) = (events c ++ rest)%list /\
    (send_count rest <= Nat.max 1 (max_retry_attempts cfg - a))%nat.
Proof.
  induction f as [|f IH]; intros r a c; cbn [request_loop].
  { exists []. rewrite app_nil_r. split; [reflexivity | cbn [send_count]; lia]. }
  destruct (build_headers c).
  2:{ exists []. rewrite app_nil_r. split; [reflexivity | cbn [send_count]; lia]. }
  assert (H1 : events (log_event (Send r (S a)) c) = (events c ++ [Send r (S a)])%list)
    by reflexivity.
  destruct (server r (S a)) as [resp|].
  2:{ exists [Send r (S a)]. split; [exact H1 | cbn [send_count]; lia]. }
  destruct (handle_response resp) as [v|err].
  { exists [Send r (S a)]. split; [exact H1 | cbn [send_count]; lia]. }
  destruct (max_retry_attempts cfg <=? S a)%nat eqn:Emax.
  { exists [Send r (S a)]. split; [exact H1 | cbn [send_count]; lia]. }
  apply Nat.leb_gt in Emax.
  destruct (should_retry_no_send rok err (log_event (Send r (S a)) c)) as [r1 [E1 S1]].
  destruct (should_retry_error rok err (log_event (Send r (S a)) c)) as [[[|]|e] c'];
    cbn [snd] in E1.
  - destruct (IH r (S a) (log_event (Sleep (calculate_backoff_delay cfg (S a) (jit (S a)))) c'))
      as [r2 [E2 S2]].
    exists ([Send r (S a)] ++ r1 ++ [Sleep (calculate_backoff_delay cfg (S a) (jit (S a)))] ++ r2)%list.
    split.
    + rewrite E2. cbn [events log_event]. rewrite E1, H1, !app_assoc. reflexivity.
    + rewrite !send_count_app, S1. cbn [send_count]. lia.
  - exists ([Send r (S a)] ++ r1)%list. split.
    + cbn [snd]. rewrite E1, H1, app_assoc. reflexivity.
    + rewrite send_count_app, S1. cbn [send_count]. lia.
  - exists ([Send r (S a)] ++ r1)%list. split.
    + cbn [snd]. rewrite E1, H1, app_assoc. reflexivity.
    + rewrite send_count_app, S1. cbn [send_count]. lia.
Qed.

(** [make_get_request], [make_post_request] and the PUT loop of
    [replace_playlist_tracks] make at most [max(1, max_retry_attempts)]
    HTTP attempts per call, whatever the server answers. *)
Theorem send_with_retry_attempts_bounded cfg server jit rok r c :
  exists rest,
    events (snd (send_with_retry cfg server jit rok r c)) = (events c ++ rest)%list /\
    (send_count rest <= Nat.max 1 (max_retry_attempts cfg))%nat.
Proof.
  unfold send_with_retry.
  destruct (ensure_valid_token_no_send rok c) as [r0 [E0 S0]].
  destruct (ensure_valid_token rok c) as [[[]|e] c1]; cbn [snd] in E0.
  - destruct (request_loop_send_bound cfg server jit rok (S (max_retry_attempts cfg)) r 0 c1)
      as [r1 [E1 S1]].
    exists (r0 ++ r1)%list. split.
    + rewrite E1, E0, app_assoc. reflexivity.
    + rewrite send_count_app, S0, Nat.sub_0_r in *. cbn [plus]. exact S1.
  - exists r0. split; [exact E0 | rewrite S0; lia].
Qed.

(** A failed [send()] ends the call at once: one attempt, no retry, even
    though [should_retry_error] counts [NetworkError] as retryable (the
    [map_err(...)?] returns before the retry logic is reached). *)
Theorem transport_failure_not_retried cfg server jit rok r c tok
  (Hfresh : token_needs_refresh c = false) (Htok : access_token c = Some tok)
  (Hhdr : header_value_ok ("Bearer " ++ tok) = true)
  (Hnone : server r 1%nat = None) :
  send_with_retry cfg server jit rok r c =
    (Err (NetworkError "transport failure"), log_event (Send r 1) c).
Proof.
  unfold send_with_retry, ensure_valid_token. rewrite Hfresh.
  cbn [request_loop]. rewrite (build_headers_ok c tok Htok Hhdr), Hnone. reflexivity.
Qed.

Lemma handle_response_client_error resp :
  400 <= status resp < 500 -> status resp <> 401 -> status resp <> 408 ->
  status resp <> 429 ->
  exists e, handle_response resp = Err e /\
            forall rok c, should_retry_error rok e c = (Ok false, c).
Proof.
  intros Hr H401 H408 H429. unfold handle_response.
  set (st := status resp) in *.
  assert (Hok : (st =? 200) || (st =? 201) = false).
  { apply orb_false_iff; split; apply Z.eqb_neq; lia. }
  assert (E401 : (st =? 401) = false) by (apply Z.eqb_neq; exact H401).
  assert (E429 : (st =? 429) = false) by (apply Z.eqb_neq; exact H429).
  assert (Hretry : forall msg rok c,
            should_retry_error rok (ApiRequestFailed st msg) c = (Ok false, c)).
  { intros msg rok c. cbn [should_retry_error].
    assert (E500 : (500 <=? st) = false) by (apply Z.leb_gt; lia).
    assert (E408 : (st =? 408) = false) by (apply Z.eqb_neq; exact H408).
    rewrite E500, E408, E429. reflexivity. }
  rewrite Hok, E401, E429.
  destruct (st =? 404).
  - destruct (contains (body resp) "track"); [eexists; split; [reflexivity | reflexivity]|].
    destruct (contains (body resp) "playlist"); [eexists; split; [reflexivity | reflexivity]|].
    eexists; split; [reflexivity | apply Hretry].
  - destruct (st =? 403).
    + destruct (contains (body resp) "playlist"); [eexists; split; [reflexivity | reflexivity]|].
      eexists; split; [reflexivity | apply Hretry].
    + eexists; split; [reflexivity | apply Hretry].
Qed.

(** A 4xx answer other than 401, 408 and 429 is never retried: the call
    makes exactly one attempt, sleeps not at all, and returns the error
    [handle_response] made of the answer. *)
Theorem client_error_not_retried cfg server jit rok r c tok resp
  (Hfresh : token_needs_refresh c = false) (Htok : access_token c = Some tok)
  (Hhdr : header_value_ok ("Bearer " ++ tok) = true)
  (Hresp : server r 1%nat = Some resp)
  (Hrange : 400 <= status resp < 500) (H401 : status resp <> 401)
  (H408 : status resp <> 408) (H429 : status resp <> 429) :
  exists e, handle_response resp = Err e /\
    send_with_retry cfg server jit rok r c = (Err e, log_event (Send r 1) c).
Proof.
  destruct (handle_response_client_error resp Hrange H401 H408 H429) as [e [He Hs]].
  exists e. split; [exact He|].
  unfold send_with_retry, ensure_valid_token. rewrite Hfresh.
  cbn [request_loop]. rewrite (build_headers_ok c tok Htok Hhdr), Hresp, He.
  destruct (max_retry_attempts cfg <=? 1)%nat; [reflexivity|].
  rewrite Hs. reflexivity.
Qed.


End ClientExtras.

(** * Further properties of the playlist store and manager *)

Section StoreExtras.
Import Store.

Lemma strip_prefix_some p u t : strip_prefix p u = Some t -> u = (p ++ t).
Proof.
  revert u. induction p as [|a p IH]; intros u; cbn.
  - congruence.
  - destruct u as [|b u]; [discriminate|].
    destruct (Ascii.eqb a b) eqn:E; [|discriminate].
    apply Ascii.eqb_eq in E. subst b. intros H. f_equal. now apply IH.
Qed.

(** [str::starts_with] and [str::strip_prefix] agree. *)
Lemma prefix_strip_prefix p u :
  String.prefix p u = true <-> exists t, strip_prefix p u = Some t.
Proof.
  revert u. induction p as [|a p IH]; intros u; cbn.
  - destruct u; split; eauto.
  - destruct u as [|b u]; [split; [discriminate | intros [t Ht]; discriminate]|].
    cbn [prefix strip_prefix].
    destruct (ascii_dec a b) as [<-|Hne]; [rewrite Ascii.eqb_refl; apply IH|].
    apply Ascii.eqb_neq in Hne. rewrite Hne.
    split; [discriminate | intros [t Ht]; discriminate].
Qed.

Lemma api_get_track_calls tid s :
  calls (snd (api_get_track tid s)) = (calls s ++ [GetTrack tid])%list.
Proof. unfold api_get_track, find_track. cbn. destruct (find _ (catalog s)); reflexivity. Qed.

Lemma api_get_page_calls pl off lim s :
  calls (snd (api_get_page pl off lim s)) = (calls s ++ [GetPage pl off lim])%list.
Proof. unfold api_get_page. cbn. destruct (page_failure s); reflexivity. Qed.

Lemma api_post_tracks_calls pl us s :
  calls (snd (api_post_tracks pl us s)) = (calls s ++ [PostTracks pl us])%list.
Proof.
  unfold api_post_tracks. cbn. destruct (post_failure s); [reflexivity|].
  destruct (lookup_uris us (catalog s)); reflexivity.
Qed.

Lemma check_loop_calls f pl u off s :
  exists l, calls (snd (check_loop f pl u off s)) = (calls s ++ l)%list /\ write_count l = O.
Proof.
  revert off s. induction f as [|f IH]; intros off s; cbn [check_loop].
  { exists []. now rewrite app_nil_r. }
  pose proof (api_get_page_calls pl off PAGE_LIMIT s) as Hc.
  destruct (api_get_page pl off PAGE_LIMIT s) as [[items|e] s'] eqn:E; cbn [snd] in Hc |- *.
  - destruct (existsb (item_has_uri u) items); [cbn; exists [GetPage pl off PAGE_LIMIT]; auto|].
    destruct (List.length items <? PAGE_LIMIT)%nat; [cbn; exists [GetPage pl off PAGE_LIMIT]; auto|].
    destruct (IH (off + PAGE_LIMIT)%nat s') as [l [Hl Hw]].
    exists (GetPage pl off PAGE_LIMIT :: l). rewrite Hl, Hc, <- app_assoc. auto.
  - exists [GetPage pl off PAGE_LIMIT]. auto.
Qed.

Lemma add_track_to_playlist_calls pl u s :
  exists l, calls (snd (add_track_to_playlist pl u s)) = (calls s ++ l)%list /\
            (write_count l <= 1)%nat.
Proof.
  unfold add_track_to_playlist, check_track_exists_in_playlist.
  destruct (check_loop_calls (S (List.length (playlists s pl))) pl u 0 s) as [l [Hl Hw]].
  destruct (check_loop _ pl u 0 s) as [[[|]|e] s'] eqn:E; cbn [snd] in Hl |- *.
  - exists l. rewrite Hl, Hw. auto.
  - rewrite api_post_tracks_calls, Hl, <- app_assoc.
    exists (l ++ [PostTracks pl [u]])%list. split; [reflexivity|].
    rewrite write_count_app, Hw. cbn. lia.
  - exists l. rewrite Hl, Hw. auto.
Qed.

(** [add_track_to_collaborative] rejects a URI without the
    ["spotify:track:"] prefix before any API call, leaving the server as it
    was; for a URI with the prefix, its first call is the lookup of the
    track id and the whole call makes at most one playlist write. *)
Theorem add_track_to_collaborative_calls cfg dbg u s :
  (strip_prefix "spotify:track:" u = None ->
   add_track_to_collaborative cfg dbg u s =
     (Err (AddTrackFailed ("Invalid Spotify track URI format: " ++ u)), s)) /\
  (forall tid, strip_prefix "spotify:track:" u = Some tid ->
   exists l, calls (snd (add_track_to_collaborative cfg dbg u s)) =
               (calls s ++ GetTrack tid :: l)%list /\ (write_count l <= 1)%nat).
Proof.
  unfold add_track_to_collaborative, extract_track_id_from_uri. split.
  - intros ->. reflexivity.
  - intros tid ->.
    pose proof (api_get_track_calls tid s) as Hg. unfold get_track_info.
    destruct (api_get_track tid s) as [[ti|e] s1] eqn:Eg; cbn [snd] in Hg |- *.
    2:{ exists []. rewrite Hg. auto. }
    unfold check_track_exists_in_playlist.
    destruct (check_loop_calls (S (List.length (playlists s1 (collaborative_playlist_id cfg))))
                (collaborative_playlist_id cfg) u 0 s1) as [l1 [H1 W1]].
    destruct (check_loop _ _ u 0 s1) as [[[|]|e] s2] eqn:Ec; cbn [snd] in H1 |- *.
    + exists l1. rewrite H1, Hg, <- app_assoc. cbn. rewrite W1. auto.
    + destruct (add_track_to_playlist_calls (collaborative_playlist_id cfg) u s2) as [l2 [H2 W2]].
      destruct (add_track_to_playlist _ u s2) as [[[]|e] s3];
        cbn [snd] in H2 |- *; exists (l1 ++ l2)%list;
        (split; [rewrite H2, H1, Hg, <- !app_assoc; reflexivity
                | rewrite write_count_app, W1; lia]).
    + exists l1. rewrite H1, Hg, <- app_assoc. cbn. rewrite W1. auto.
Qed.

(** [extract_track_id_from_uri] inverts [format!("spotify:track:{}", id)]:
    it returns [Ok id] exactly for the URI ["spotify:track:" ++ id]. *)
Theorem extract_track_id_from_uri_iff u tid :
  extract_track_id_from_uri u = Ok tid <-> u = ("spotify:track:" ++ tid).
Proof.
  unfold extract_track_id_from_uri. split.
  - destruct (strip_prefix "spotify:track:" u) as [t|] eqn:E; [|discriminate].
    intros H. injection H as <-. now apply strip_prefix_some.
  - intros ->. now rewrite strip_prefix_app.
Qed.

(** [validate_track_uri] accepts exactly the URIs from which
    [extract_track_id_from_uri] takes a 22-byte track id. *)
Theorem validate_track_uri_ok_iff u :
  validate_track_uri u = Ok tt <->
  exists tid, extract_track_id_from_uri u = Ok tid /\ String.length tid = 22%nat.
Proof.
  unfold validate_track_uri, extract_track_id_from_uri.
  destruct (strip_prefix "spotify:track:" u) as [t|].
  - split.
    + destruct ((String.length t =? 0)%nat || negb (String.length t =? 22)%nat) eqn:E;
        [discriminate|].
      intros _. exists t. split; [reflexivity|].
      apply orb_false_iff in E as [_ E]. apply negb_false_iff, Nat.eqb_eq in E. exact E.
    + intros [t' [H Hlen]]. injection H as <-. rewrite Hlen. reflexivity.
  - split; [discriminate | intros [t' [H _]]; discriminate].
Qed.

(** [get_recent_collaborative_tracks limit] returns the last
    [min(limit, N)] tracks of the collaborative playlist in playlist order
    (the suffix of the listing), after the same requests as
    [get_collaborative_tracks]; its errors are those of
    [get_collaborative_tracks]. *)
Theorem get_recent_collaborative_tracks_suffix cfg dbg limit s :
  get_recent_collaborative_tracks cfg dbg limit s =
    match get_collaborative_tracks cfg dbg s with
    | (Ok ts, s') => (Ok (skipn (List.length ts - limit) ts), s')
    | (Err e, s') => (Err e, s')
    end.
Proof.
  unfold get_recent_collaborative_tracks.
  destruct (get_collaborative_tracks cfg dbg s) as [[ts|e] s']; [|reflexivity].
  destruct (List.length ts <=? limit)%nat eqn:E.
  - apply Nat.leb_le in E. replace (List.length ts - limit)%nat with O by lia. reflexivity.
  - rewrite firstn_rev, rev_involutive. reflexivity.
Qed.

(** [track_exists_in_collaborative id] answers whether the collaborative
    playlist holds an entry with URI ["spotify:track:" ++ id], using only
    page reads (no write); a failing page read becomes
    [RetrieveTracksFailed]. *)
Theorem track_exists_in_collaborative_spec cfg dbg tid s :
  (page_failure s = None ->
   exists k, track_exists_in_collaborative cfg dbg tid s =
     (Ok (existsb (item_has_uri ("spotify:track:" ++ tid))
            (playlists s (collaborative_playlist_id cfg))),
      add_calls s (page_calls (collaborative_playlist_id cfg) 0 k))) /\
  (forall e, page_failure s = Some e ->
   fst (track_exists_in_collaborative cfg dbg tid s) =
     Err (RetrieveTracksFailed ("Failed to check if track exists: " ++ dbg e))).
Proof.
  unfold track_exists_in_collaborative. split.
  - intros Hpf.
    destruct (check_track_exists_spec (collaborative_playlist_id cfg) ("spotify:track:" ++ tid) s Hpf)
      as [k Hk].
    exists k. rewrite Hk. reflexivity.
  - intros e Hpf. unfold check_track_exists_in_playlist. cbn [check_loop].
    unfold api_get_page. cbn [log_call page_failure]. rewrite Hpf. reflexivity.
Qed.

(** [add_multiple_tracks_to_collaborative] makes at most one playlist write
    per URI, whatever the outcome; when it succeeds it returns one result
    per URI. *)
Theorem add_multiple_tracks_writes_bounded cfg dbg uris s :
  exists l,
    calls (snd (add_multiple_tracks_to_collaborative cfg dbg uris s)) = (calls s ++ l)%list /\
    (write_count l <= List.length uris)%nat /\
    (forall rs, fst (add_multiple_tracks_to_collaborative cfg dbg uris s) = Ok rs ->
                List.length rs = List.length uris).
Proof.
  revert s. induction uris as [|u us IH]; intros s; cbn [add_multiple_tracks_to_collaborative].
  { exists []. rewrite app_nil_r. split; [reflexivity|]. split; [cbn; lia|].
    intros rs H. injection H as <-. reflexivity. }
  assert (Hone : exists l, calls (snd (add_track_to_collaborative cfg dbg u s)) = (calls s ++ l)%list
                           /\ (write_count l <= 1)%nat).
  { destruct (add_track_to_collaborative_calls cfg dbg u s) as [Hn Hs].
    destruct (strip_prefix "spotify:track:" u) as [tid|] eqn:E.
    - destruct (Hs tid eq_refl) as [l [Hl Hw]]. exists (GetTrack tid :: l). split; [exact Hl|].
      exact Hw.
    - rewrite (Hn eq_refl). exists []. rewrite app_nil_r. split; [reflexivity | cbn; lia]. }
  destruct Hone as [l1 [H1 W1]].
  destruct (add_track_to_collaborative cfg dbg u s) as [[r|e] s1]; cbn [snd] in H1.
  - destruct (IH s1) as [l2 [H2 [W2 L2]]].
    destruct (add_multiple_tracks_to_collaborative cfg dbg us s1) as [[rs|e] s2];
      cbn [snd fst] in H2, L2 |- *.
    + exists (l1 ++ l2)%list. split; [rewrite H2, H1, app_assoc; reflexivity|].
      split; [rewrite write_count_app; cbn [List.length]; lia|].
      intros rs' H. injection H as <-. cbn. rewrite (L2 rs eq_refl). reflexivity.
    + exists (l1 ++ l2)%list. split; [rewrite H2, H1, app_assoc; reflexivity|].
      split; [rewrite write_count_app; cbn [List.length]; lia | discriminate].
  - exists l1. split; [exact H1|]. split; [cbn [List.length]; lia | discriminate].
Qed.

End StoreExtras.

(** * Properties of the playlist statistics *)

Section StatsExtras.

Import Stats.

(** The count stored for [x] in the artist map, 0 when absent. *)
Definition assoc (x : string) (m : list (string * nat)) : nat :=
  match find (fun p => String.eqb (fst p) x) m with
  | Some p => snd p
  | None => 0%nat
  end.

Definition bump_all (l : list string) (m : list (string * nat)) :=
  fold_left (fun m a => bump a m) l m.

Lemma count_artists_flat (tracks : list TrackInfo) (m : list (string * nat)) :
  count_artists tracks m = bump_all (flat_map artists tracks) m.
Proof.
  revert m; induction tracks as [|t ts IH]; intros m; [reflexivity|].
  cbn [count_artists flat_map]. rewrite IH. unfold bump_all. now rewrite fold_left_app.
Qed.

Lemma bump_keys (a x : string) (m : list (string * nat)) :
  In x (map fst (bump a m)) <-> x = a \/ In x (map fst m).
Proof.
  induction m as [|[k n] m IH]; cbn [bump map fst In].
  - intuition congruence.
  - destruct (String.eqb k a) eqn:E.
    + apply String.eqb_eq in E; subst. cbn [map fst In]. intuition congruence.
    + cbn [map fst In]. rewrite IH. intuition congruence.
Qed.

Lemma bump_nodup (a : string) (m : list (string * nat)) :
  NoDup (map fst m) -> NoDup (map fst (bump a m)).
Proof.
  induction m as [|[k n] m IH]; intros Hnd; cbn [bump map fst].
  - constructor; [intros []|constructor].
  - inversion Hnd as [|? ? Hk Hnd']; subst.
    destruct (String.eqb k a) eqn:E; cbn [map fst].
    + constructor; assumption.
    + constructor; [|now apply IH].
      rewrite bump_keys. intros [Hka|Hin]; [|contradiction].
      subst. rewrite String.eqb_refl in E. discriminate.
Qed.

Lemma bump_assoc (a x : string) (m : list (string * nat)) :
  assoc x (bump a m) = (assoc x m + (if String.eqb a x then 1 else 0))%nat.
Proof.
  unfold assoc. induction m as [|[k n] m IH]; cbn [bump find fst snd].
  - destruct (String.eqb a x); reflexivity.
  - destruct (String.eqb k a) eqn:E.
    + apply String.eqb_eq in E; subst. cbn [find fst snd].
      destruct (String.eqb a x); cbn [snd]; lia.
    + cbn [find fst snd]. destruct (String.eqb k x) eqn:E2.
      * apply String.eqb_eq in E2; subst.
        rewrite String.eqb_sym in E. rewrite E. lia.
      * exact IH.
Qed.

Lemma bump_all_keys (l : list string) (x : string) (m : list (string * nat)) :
  In x (map fst (bump_all l m)) <-> In x l \/ In x (map fst m).
Proof.
  revert m; induction l as [|a l IH]; intros m; cbn [bump_all fold_left In].
  - tauto.
  - unfold bump_all in IH. rewrite IH, bump_keys. split; intros; intuition.
Qed.

Lemma bump_all_nodup (l : list string) (m : list (string * nat)) :
  NoDup (map fst m) -> NoDup (map fst (bump_all l m)).
Proof.
  revert m; induction l as [|a l IH]; intros m Hnd; [exact Hnd|].
  apply IH, bump_nodup, Hnd.
Qed.

Lemma bump_all_assoc (l : list string) (x : string) (m : list (string * nat)) :
  assoc x (bump_all l m) = (assoc x m + count_occ string_dec l x)%nat.
Proof.
  revert m; induction l as [|a l IH]; intros m; cbn [bump_all fold_left count_occ].
  - lia.
  - unfold bump_all in IH. rewrite IH, bump_assoc.
    destruct (string_dec a x) as [->|Hne].
    + rewrite String.eqb_refl. lia.
    + apply String.eqb_neq in Hne. rewrite Hne. lia.
Qed.

Lemma assoc_entry (m : list (string * nat)) (p : string * nat) :
  NoDup (map fst m) -> In p m -> snd p = assoc (fst p) m.
Proof.
  unfold assoc. induction m as [|[k n] m IH]; intros Hnd Hin; [destruct Hin|].
  inversion Hnd as [|? ? Hk Hnd']; subst.
  cbn [find fst snd]. destruct Hin as [<-|Hin].
  - cbn [fst snd]. now rewrite String.eqb_refl.
  - destruct (String.eqb k (fst p)) eqn:E.
    + apply String.eqb_eq in E; subst. exfalso. apply Hk, in_map, Hin.
    + now apply IH.
Qed.

Lemma assoc_absent (m : list (string * nat)) (x : string) :
  ~ In x (map fst m) -> assoc x m = 0%nat.
Proof.
  unfold assoc. induction m as [|[k n] m IH]; intros Hx; [reflexivity|].
  cbn [find fst]. cbn [map fst In] in Hx.
  destruct (String.eqb k x) eqn:E.
  - apply String.eqb_eq in E. exfalso. tauto.
  - apply IH. tauto.
Qed.

Definition max_step (acc : option (string * nat)) (x : string * nat) :=
  match acc with
  | None => Some x
  | Some y => if (snd y <=? snd x)%nat then Some x else Some y
  end.

Lemma max_fold_some (l : list (string * nat)) (y : string * nat) :
  fold_left max_step l (Some y) <> None.
Proof.
  revert y; induction l as [|x l IH]; intros y; [discriminate|].
  cbn [fold_left max_step]. destruct (snd y <=? snd x)%nat; apply IH.
Qed.

Lemma max_fold_spec (l : list (string * nat)) (acc : option (string * nat))
  (p : string * nat) :
  fold_left max_step l acc = Some p ->
  (In p l \/ acc = Some p) /\ (forall q, In q l -> (snd q <= snd p)%nat) /\
  (forall y, acc = Some y -> (snd y <= snd p)%nat).
Proof.
  revert acc; induction l as [|x l IH]; intros acc H.
  - cbn in H. subst acc. split; [auto|]. split; [intros q []|]. intros y Hy.
    injection Hy as ->. lia.
  - cbn [fold_left] in H. apply IH in H as (Hin & Hle & Hacc).
    destruct acc as [y|]; cbn [max_step] in *.
    + destruct (snd y <=? snd x)%nat eqn:E.
      * apply Nat.leb_le in E. specialize (Hacc x eq_refl).
        split; [destruct Hin as [Hin|Hin]; [left; right; exact Hin|injection Hin as ->; left; left; reflexivity]|].
        split; [intros q [<-|Hq]; [exact Hacc|auto]|].
        intros y' Hy'. injection Hy' as ->. lia.
      * apply Nat.leb_gt in E. specialize (Hacc y eq_refl).
        split; [destruct Hin as [Hin|Hin]; [left; right; exact Hin|right; exact Hin]|].
        split; [intros q [<-|Hq]; [lia|auto]|].
        intros y' Hy'. injection Hy' as ->. exact Hacc.
    + specialize (Hacc x eq_refl).
      split; [destruct Hin as [Hin|Hin]; [left; right; exact Hin|injection Hin as ->; left; left; reflexivity]|].
      split; [intros q [<-|Hq]; [exact Hacc|auto]|discriminate].
Qed.

Lemma max_by_key_none (l : list (string * nat)) : max_by_key l = None <-> l = [].
Proof.
  unfold max_by_key. destruct l as [|x l]; [split; reflexivity|].
  split; [|discriminate]. intros H. exfalso. apply (max_fold_some l x), H.
Qed.

Lemma max_by_key_some (l : list (string * nat)) (p : string * nat) :
  max_by_key l = Some p -> In p l /\ (forall q, In q l -> (snd q <= snd p)%nat).
Proof.
  unfold max_by_key. intros H.
  apply (max_fold_spec l None p) in H as ([Hin|Hin] & Hle & _); [|discriminate].
  auto.
Qed.

Lemma sum_u32_bound (tracks : list TrackInfo) :
  forallb (fun t => (0 <=? duration_ms t) && (duration_ms t <? 2 ^ 32)) tracks = true ->
  0 <= fold_right Z.add 0 (map duration_ms tracks) <= Z.of_nat (List.length tracks) * (2 ^ 32 - 1).
Proof.
  induction tracks as [|t ts IH]; intros H; [cbn; lia|].
  cbn [forallb] in H. apply andb_true_iff in H as [Ht Hts].
  apply andb_true_iff in Ht as [H0 H1]. apply Z.leb_le in H0. apply Z.ltb_lt in H1.
  specialize (IH Hts). cbn [map fold_right List.length]. rewrite Nat2Z.inj_succ. nia.
Qed.

(** [PlaylistStats::from_tracks]: when every track's duration is a [u32] (as
    [TrackInfo::duration_ms] is) and there are at most 2^32 tracks, the u64
    [total_duration_ms] is the exact sum of the durations (the sum cannot
    wrap), and [explicit_tracks] never exceeds [total_tracks]. *)
Theorem from_tracks_duration_exact
  (order : list (string * nat) -> list (string * nat)) (tracks : list TrackInfo)
  (Hdur : forallb (fun t => (0 <=? duration_ms t) && (duration_ms t <? 2 ^ 32)) tracks = true)
  (Hlen : (Z.of_nat (List.length tracks) <=? 2 ^ 32) = true) :
  total_duration_ms (from_tracks order tracks) = fold_right Z.add 0 (map duration_ms tracks) /\
  (explicit_tracks (from_tracks order tracks) <= total_tracks (from_tracks order tracks))%nat.
Proof.
  split.
  - cbn [from_tracks total_duration_ms]. unfold wrap64, u64_modulus.
    apply Z.leb_le in Hlen. apply sum_u32_bound in Hdur.
    apply Z.mod_small. split; [lia|].
    assert (Z.of_nat (List.length tracks) * (2 ^ 32 - 1) < 2 ^ 64); [|lia]. nia.
  - cbn [from_tracks explicit_tracks total_tracks]. apply filter_length_le.
Qed.

Lemma unique_artists_count
  (order : list (string * nat) -> list (string * nat)) (tracks : list TrackInfo) :
  unique_artists (from_tracks order tracks) =
  List.length (nodup string_dec (flat_map artists tracks)).
Proof.
  cbn [from_tracks unique_artists]. rewrite count_artists_flat.
  set (l := flat_map artists tracks). rewrite <- (length_map fst).
  apply Permutation_length, NoDup_Permutation.
  - apply bump_all_nodup. constructor.
  - apply NoDup_nodup.
  - intros x. rewrite bump_all_keys, nodup_In. cbn [map In]. tauto.
Qed.

(** [PlaylistStats::from_tracks]: [unique_artists] is the number of distinct
    artist names over all the tracks' artist lists. *)
Theorem from_tracks_unique_artists
  (order : list (string * nat) -> list (string * nat)) (tracks : list TrackInfo) :
  unique_artists (from_tracks order tracks) =
  List.length (nodup string_dec (flat_map artists tracks)).
Proof. apply unique_artists_count. Qed.

(** [PlaylistStats::from_tracks]: whatever order the [HashMap] is iterated
    in, [most_common_artist] is [None] exactly when no track names an
    artist, and otherwise it is an artist that occurs in the tracks at least
    as often as any other name. *)
Theorem from_tracks_most_common_artist
  (order : list (string * nat) -> list (string * nat)) (tracks : list TrackInfo)
  (Hperm : forall m, Permutation (order m) m) :
  (most_common_artist (from_tracks order tracks) = None <-> flat_map artists tracks = []) /\
  (forall a, most_common_artist (from_tracks order tracks) = Some a ->
     In a (flat_map artists tracks) /\
     forall b, (count_occ string_dec (flat_map artists tracks) b <=
                count_occ string_dec (flat_map artists tracks) a)%nat).
Proof.
  cbn [from_tracks most_common_artist]. rewrite count_artists_flat.
  set (l := flat_map artists tracks). set (m := bump_all l []).
  assert (Hnd : NoDup (map fst m)) by (apply bump_all_nodup; constructor).
  assert (Hcnt : forall x, assoc x m = count_occ string_dec l x).
  { intros x. unfold m. rewrite bump_all_assoc. reflexivity. }
  assert (Hkeys : forall x, In x (map fst m) <-> In x l).
  { intros x. unfold m. rewrite bump_all_keys. cbn [map In]. tauto. }
  split.
  - destruct (max_by_key (order m)) as [p|] eqn:E; cbn [option_map].
    + split; [discriminate|]. intros Hl.
      apply max_by_key_some in E as [Hin _].
      apply (Permutation_in _ (Hperm m)) in Hin.
      apply (in_map fst), Hkeys in Hin. rewrite Hl in Hin. destruct Hin.
    + split; [intros _|reflexivity].
      apply max_by_key_none in E.
      pose proof (Permutation_length (Hperm m)) as Hlen. rewrite E in Hlen.
      destruct m as [|p m'] eqn:Em; [|discriminate].
      destruct l as [|x l'] eqn:El; [reflexivity|].
      exfalso. apply (proj2 (Hkeys x)). left. reflexivity.
  - intros a Ha. destruct (max_by_key (order m)) as [[k n]|] eqn:E; [|discriminate].
    cbn [option_map fst] in Ha. injection Ha as <-.
    apply max_by_key_some in E as [Hin Hmax].
    apply (Permutation_in _ (Hperm m)) in Hin.
    split; [apply Hkeys, (in_map fst m (k, n)), Hin|].
    intros b. rewrite <- !Hcnt.
    pose proof (assoc_entry m (k, n) Hnd Hin) as Hk. cbn [fst snd] in Hk. rewrite <- Hk.
    destruct (in_dec string_dec b (map fst m)) as [Hb|Hb].
    + apply in_map_iff in Hb as [[b' nb] [Hb' Hinb]]. cbn [fst] in Hb'. subst b'.
      pose proof (assoc_entry m (b, nb) Hnd Hinb) as Hb. cbn [fst snd] in Hb. rewrite <- Hb.
      apply (Hmax (b, nb)), (Permutation_in _ (Permutation_sym (Hperm m))), Hinb.
    + rewrite assoc_absent by exact Hb. lia.
Qed.

End StatsExtras.

(** * Properties of the discovery workflow *)

Section GeneratorExtras.
Import Discovery Generator.

(** A successful [get_recommendations] gives 1 to 20 tracks with distinct
    ids. *)
Lemma get_recommendations_ok ti st seeds recs :
  get_recommendations ti st seeds = Ok recs ->
  recs <> [] /\ (List.length recs <= 20)%nat /\ NoDup (map id recs).
Proof.
  unfold get_recommendations. intros Er.
  destruct seeds as [|sid rest]; [discriminate|].
  destruct (seeds_loop_inv ti st (sid :: rest) 0 [] [])
    as (G1 & G2 & _); [constructor | intros x [] | cbn; lia |].
  destruct (seeds_loop ti st 0 (sid :: rest) [] []) as [|r0 rs] eqn:E; [discriminate|].
  injection Er as <-. split; [discriminate|]. split; [exact G2 | exact G1].
Qed.

(** [generate_weekly_playlist]: a generated playlist holds exactly the
    tracks [get_recommendations] returned for the seeds [select_seed_tracks]
    drew from the collaborative listing, so the [take(20)] never cuts
    anything: there are 1 to 20 of them, with distinct ids.  Its seeds are
    those seeds, and its stats are [PlaylistStats::from_tracks] of those
    tracks. *)
Theorem generate_weekly_playlist_ok cfg dbgS dbgP order choose ti st s p
  (H : fst (generate_weekly_playlist cfg dbgS dbgP order choose ti st s) = Ok p) :
  exists ts seeds recs,
    fst (Store.get_collaborative_tracks cfg dbgS s) = Ok ts /\
    select_seed_tracks ts choose = Ok seeds /\
    get_recommendations ti st seeds = Ok recs /\
    (1 <= List.length recs <= 20)%nat /\
    NoDup (map id recs) /\
    p = new_discovery_playlist order recs seeds.
Proof.
  unfold generate_weekly_playlist in H.
  destruct (Store.get_collaborative_tracks cfg dbgS s) as [[ts|e] s']; [|discriminate].
  destruct ts as [|t0 ts]; [discriminate|].
  destruct (select_seed_tracks (t0 :: ts) choose) as [seeds|e] eqn:Es; [|discriminate].
  destruct (get_recommendations ti st seeds) as [recs|e] eqn:Er; [|discriminate].
  destruct (get_recommendations_ok ti st seeds recs Er) as (Hne & Hle & Hnd).
  remember (firstn 20 recs) as dt eqn:Edt.
  cbn [fst] in H. injection H as <-.
  exists (t0 :: ts), seeds, recs.
  split; [reflexivity|]. split; [exact Es|]. split; [exact Er|].
  split; [destruct recs; [congruence | cbn [List.length] in *; lia]|].
  split; [exact Hnd|].
  rewrite Edt, firstn_all2 by exact Hle. reflexivity.
Qed.

(** [get_generation_stats] reads the same listing as
    [generate_weekly_playlist] and predicts it: when it reports
    [can_generate = false] the generation fails with
    [InsufficientSeedTracks { count: 0, required: 1 }], and otherwise
    [select_seed_tracks], given a valid draw, returns exactly
    [max_seed_tracks] seeds. *)
Theorem generation_stats_predict_generation cfg dbgS dbgP order choose ti st s ts s'
  (Hlist : Store.get_collaborative_tracks cfg dbgS s = (Ok ts, s'))
  (Hch : choice_ok (List.length (recent_tracks ts))
           (Nat.min MAX_SEED_TRACKS (List.length (recent_tracks ts)))
           (choose (recent_tracks ts)
              (Nat.min MAX_SEED_TRACKS (List.length (recent_tracks ts)))) = true) :
  exists gs,
    get_generation_stats cfg dbgS dbgP s = (Ok gs, s') /\
    total_collaborative_tracks gs = List.length ts /\
    (can_generate gs = false ->
     generate_weekly_playlist cfg dbgS dbgP order choose ti st s =
       (Err (InsufficientSeedTracks 0 1), s')) /\
    (can_generate gs = true ->
     exists ids, select_seed_tracks ts choose = Ok ids /\
                 List.length ids = max_seed_tracks gs).
Proof.
  unfold get_generation_stats, generate_weekly_playlist. rewrite Hlist.
  eexists. split; [reflexivity|]. cbn [total_collaborative_tracks can_generate max_seed_tracks].
  split; [reflexivity|]. split.
  - intros Hc. apply Nat.ltb_ge in Hc. destruct ts; [reflexivity|cbn in Hc; lia].
  - intros Hc. apply Nat.ltb_lt in Hc. destruct ts as [|t0 ts']; [cbn in Hc; lia|].
    eexists. split; [reflexivity|].
    unfold choice_ok in Hch. apply andb_prop in Hch as [Hch _].
    apply andb_prop in Hch as [_ Hlen]. apply Nat.eqb_eq in Hlen.
    rewrite !length_map, Hlen, length_recent_tracks. unfold MAX_SEED_TRACKS. lia.
Qed.

End GeneratorExtras.

(** * Witnesses of the further properties *)

Section ExtraWitnesses.
Import Examples.

Lemma transport_failure_not_retried_witness :
  Client.send_with_retry test_cfg (fun _ _ => None) (fun _ => 0) token_granted get_req
    fresh_client =
    (Err (NetworkError "transport failure"),
     Client.log_event (Client.Send get_req 1) fresh_client).
Proof.
  apply (transport_failure_not_retried test_cfg (fun _ _ => None) (fun _ => 0) token_granted
           get_req fresh_client "tok"); reflexivity.
Defined.

Lemma client_error_not_retried_witness :
  exists e, Client.handle_response (Client.mkResponse 404 None "" true) = Err e /\
    Client.send_with_retry test_cfg (status_server 404) (fun _ => 0) token_granted get_req
      fresh_client =
      (Err e, Client.log_event (Client.Send get_req 1) fresh_client).
Proof.
  apply (client_error_not_retried test_cfg (status_server 404) (fun _ => 0) token_granted
           get_req fresh_client "tok" (Client.mkResponse 404 None "" true));
    [reflexivity | reflexivity | reflexivity | reflexivity
    | cbn; lia | cbn; lia | cbn; lia | cbn; lia].
Defined.


(** The two outcomes of a 401 at concrete inputs: with [token_granted] the
    second attempt follows the refresh and the backoff; with [token_refused]
    the call ends with ["HTTP 400: invalid_grant"]. *)
Lemma unauthorized_refreshes_token_cases :
  Client.events (snd (Client.send_with_retry test_cfg (status_server 401) (fun _ => 0)
                        token_granted get_req fresh_client)) =
    [Client.Send get_req 1; Client.RefreshToken; Client.Sleep 750; Client.Send get_req 2;
     Client.RefreshToken; Client.Sleep 1500; Client.Send get_req 3] /\
  Client.send_with_retry test_cfg (status_server 401) (fun _ => 0) token_refused get_req
    fresh_client =
    (Err (TokenRefreshFailed "HTTP 400: invalid_grant"),
     Client.log_event Client.RefreshToken (Client.log_event (Client.Send get_req 1) fresh_client)).
Proof. split; vm_compute; reflexivity. Qed.

Lemma from_tracks_duration_exact_witness :
  Stats.total_duration_ms (Stats.from_tracks (fun m => m) [tX; tY]) =
    fold_right Z.add 0 (map duration_ms [tX; tY]) /\
  (Stats.explicit_tracks (Stats.from_tracks (fun m => m) [tX; tY]) <=
   Stats.total_tracks (Stats.from_tracks (fun m => m) [tX; tY]))%nat.
Proof.
  apply (from_tracks_duration_exact (fun m => m) [tX; tY]); vm_compute; reflexivity.
Defined.

Lemma from_tracks_most_common_artist_witness :
  (Stats.most_common_artist (Stats.from_tracks (@rev _) [tX; tY]) = None <->
   flat_map artists [tX; tY] = []) /\
  (forall a, Stats.most_common_artist (Stats.from_tracks (@rev _) [tX; tY]) = Some a ->
     In a (flat_map artists [tX; tY]) /\
     forall b, (count_occ string_dec (flat_map artists [tX; tY]) b <=
                count_occ string_dec (flat_map artists [tX; tY]) a)%nat).
Proof.
  apply (from_tracks_most_common_artist (@rev _) [tX; tY]).
  intros m. apply Permutation_sym, Permutation_rev.
Defined.

Lemma generate_weekly_playlist_ok_witness :
  exists ts seeds recs,
    fst (Store.get_collaborative_tracks test_cfg debug_name gen_store) = Ok ts /\
    Discovery.select_seed_tracks ts choose_prefix = Ok seeds /\
    Discovery.get_recommendations rec_track_info rec_search seeds = Ok recs /\
    (1 <= List.length recs <= 20)%nat /\
    NoDup (map id recs) /\
    Generator.new_discovery_playlist (fun m => m) [tY; tX] ["x"; "y"; "z"] =
      Generator.new_discovery_playlist (fun m => m) recs seeds.
Proof.
  apply (generate_weekly_playlist_ok test_cfg debug_name debug_playlist_name (fun m => m)
           choose_prefix rec_track_info rec_search gen_store).
  vm_compute. reflexivity.
Defined.

Lemma generation_stats_predict_generation_witness :
  exists gs,
    Generator.get_generation_stats test_cfg debug_name debug_playlist_name gen_store =
      (Ok gs, snd (Store.get_collaborative_tracks test_cfg debug_name gen_store)) /\
    Generator.total_collaborative_tracks gs = List.length [tX; tY; tZ] /\
    (Generator.can_generate gs = false ->
     Generator.generate_weekly_playlist test_cfg debug_name debug_playlist_name (fun m => m)
       choose_prefix rec_track_info rec_search gen_store =
       (Err (InsufficientSeedTracks 0 1),
        snd (Store.get_collaborative_tracks test_cfg debug_name gen_store))) /\
    (Generator.can_generate gs = true ->
     exists ids, Discovery.select_seed_tracks [tX; tY; tZ] choose_prefix = Ok ids /\
                 List.length ids = Generator.max_seed_tracks gs).
Proof.
  apply (generation_stats_predict_generation test_cfg debug_name debug_playlist_name
           (fun m => m) choose_prefix rec_track_info rec_search gen_store [tX; tY; tZ]);
    vm_compute; reflexivity.
Defined.

End ExtraWitnesses.

(** * Properties of the track parser *)

Section JsonExtras.
Import Json.

Lemma artist_names_objects (l : list string) :
  artist_names (map (fun a => JObject [("name", JString a)]) l) = l.
Proof. induction l as [|a l IH]; [reflexivity|]. cbn. f_equal. exact IH. Qed.

Lemma string_entries_strings (l : list (string * string)) :
  string_entries (map (fun e => (fst e, JString (snd e))) l) = l.
Proof.
  induction l as [|[k v] l IH]; [reflexivity|]. cbn. f_equal. exact IH.
Qed.

(** [parse_track_info] reads back every field of a track object in the
    Web API shape, except that [duration_ms] is cut to a [u32] and
    [popularity] to a [u8] ([as u32], [as u8]); within those ranges it
    gives the track back exactly. *)
Theorem parse_track_info_track_object (t : TrackInfo) :
  parse_track_info (track_object t) =
    Some (Ok (mkTrack (id t) (uri t) (name t) (artists t) (album t)
                (duration_ms t mod 2 ^ 32) (external_urls t)
                (option_map (fun p => p mod 2 ^ 8) (popularity t))
                (preview_url t) (explicit t))) /\
  (0 <= duration_ms t < 2 ^ 32 ->
   (forall p, popularity t = Some p -> 0 <= p < 2 ^ 8) ->
   parse_track_info (track_object t) = Some (Ok t)).
Proof.
  assert (H : parse_track_info (track_object t) =
    Some (Ok (mkTrack (id t) (uri t) (name t) (artists t) (album t)
                (duration_ms t mod 2 ^ 32) (external_urls t)
                (option_map (fun p => p mod 2 ^ 8) (popularity t))
                (preview_url t) (explicit t)))).
  { destruct t as [tid turi tname tarts talb tdur turls tpop tprev texpl].
    unfold parse_track_info, track_object, map_index, lookup. cbn [fst snd id uri name artists album duration_ms external_urls popularity preview_url explicit find String.eqb Ascii.eqb Bool.eqb option_map as_str as_array as_u64 as_object as_bool value_index unwrap_or].
    rewrite artist_names_objects, string_entries_strings.
    destruct tpop, tprev; reflexivity. }
  split; [exact H|]. intros Hd Hp. rewrite H.
  destruct t as [tid turi tname tarts talb tdur turls tpop tprev texpl].
  cbn [id uri name artists album duration_ms external_urls popularity preview_url explicit] in *.
  rewrite Z.mod_small by exact Hd.
  destruct tpop as [p|]; [|reflexivity]. cbn [option_map].
  rewrite Z.mod_small by (apply Hp; reflexivity). reflexivity.
Qed.

(** [parse_track_info] on an object whose [id], [uri], [name], [artists],
    [album.name] and [duration_ms] are all present and well typed: it
    panics exactly when one of [external_urls], [popularity],
    [preview_url], [explicit] is absent (the [Map] index panics; nothing
    is defaulted), and otherwise returns a track. *)
Theorem parse_track_info_panics_on_missing_key (m : list (string * Value))
  (sid suri sname album : string) (arts : list Value) (v_album : Value) (d : Z)
  (Hid : lookup "id" m = Some (JString sid))
  (Huri : lookup "uri" m = Some (JString suri))
  (Hname : lookup "name" m = Some (JString sname))
  (Hart : lookup "artists" m = Some (JArray arts))
  (Halb : lookup "album" m = Some v_album)
  (Halbn : as_str (value_index v_album "name") = Some album)
  (Hdur : lookup "duration_ms" m = Some (JNumber (PosInt d))) :
  match parse_track_info m with
  | None => exists k, In k optional_keys /\ lookup k m = None
  | Some (Ok _) => forall k, In k optional_keys -> lookup k m <> None
  | Some (Err _) => False
  end.
Proof.
  unfold parse_track_info, map_index.
  rewrite Hid, Huri, Hname, Hart, Halb, Hdur. cbn [as_str as_array as_u64]. rewrite Halbn.
  destruct (lookup "external_urls" m) as [vu|] eqn:Eu;
    [|exists "external_urls"; split; [left; reflexivity | exact Eu]].
  destruct (lookup "popularity" m) as [vp|] eqn:Ep;
    [|exists "popularity"; split; [right; left; reflexivity | exact Ep]].
  destruct (lookup "preview_url" m) as [vr|] eqn:Er;
    [|exists "preview_url"; split; [right; right; left; reflexivity | exact Er]].
  destruct (lookup "explicit" m) as [ve|] eqn:Ee;
    [|exists "explicit"; split; [right; right; right; left; reflexivity | exact Ee]].
  intros k Hk. unfold optional_keys in Hk.
  destruct Hk as [<-|[<-|[<-|[<-|[]]]]]; congruence.
Qed.

End JsonExtras.

Section JsonWitnesses.
Import Json Examples.

Lemma parse_track_info_panics_on_missing_key_witness :
  match parse_track_info object_without_popularity with
  | None => exists k, In k optional_keys /\ lookup k object_without_popularity = None
  | Some (Ok _) => forall k, In k optional_keys -> lookup k object_without_popularity <> None
  | Some (Err _) => False
  end.
Proof.
  apply (parse_track_info_panics_on_missing_key object_without_popularity
           "x" "spotify:track:x" "X" "Album" [JObject [("name", JString "Artist")]]
           (JObject [("name", JString "Album")]) 1000); reflexivity.
Defined.

End JsonWitnesses.

(** * Properties of the playlists summary *)

Section SummaryExtras.

Definition not_in (A : list string) (x : string) : bool :=
  if in_dec string_dec x A then false else true.

Lemma nodup_app_length (A B : list string) :
  List.length (nodup string_dec (A ++ B)) =
    (List.length (nodup string_dec A) +
     List.length (nodup string_dec (filter (not_in A) B)))%nat.
Proof.
  rewrite <- length_app. apply Permutation_length, NoDup_Permutation.
  - apply NoDup_nodup.
  - apply NoDup_app; [apply NoDup_nodup | apply NoDup_nodup |].
    intros x Hx Hy. rewrite nodup_In in Hx, Hy. apply filter_In in Hy as [_ Hy].
    unfold not_in in Hy. destruct (in_dec string_dec x A); [discriminate | contradiction].
  - intros x. rewrite in_app_iff, !nodup_In, in_app_iff, filter_In. unfold not_in.
    destruct (in_dec string_dec x A); intuition congruence.
Qed.

Lemma nodup_filter_le (A B : list string) :
  (List.length (nodup string_dec (filter (not_in A) B)) <=
   List.length (nodup string_dec B))%nat.
Proof.
  apply NoDup_incl_length; [apply NoDup_nodup|].
  intros x Hx. rewrite nodup_In in *. apply filter_In in Hx as [Hx _]. exact Hx.
Qed.

Lemma nodup_filter_shared (A B : list string) (a : string) :
  In a A -> In a B ->
  (List.length (nodup string_dec (filter (not_in A) B)) <
   List.length (nodup string_dec B))%nat.
Proof.
  intros HA HB.
  enough (List.length (a :: nodup string_dec (filter (not_in A) B)) <=
          List.length (nodup string_dec B))%nat by (cbn [List.length] in *; lia).
  apply NoDup_incl_length.
  - constructor; [|apply NoDup_nodup].
    rewrite nodup_In, filter_In. unfold not_in.
    destruct (in_dec string_dec a A); [intros [_ H]; discriminate | contradiction].
  - intros x [<-|Hx]; rewrite nodup_In; [exact HB|].
    rewrite nodup_In in Hx. apply filter_In in Hx as [Hx _]. exact Hx.
Qed.

Lemma nodup_filter_disjoint (A B : list string) :
  (forall a, In a A -> ~ In a B) ->
  List.length (nodup string_dec (filter (not_in A) B)) = List.length (nodup string_dec B).
Proof.
  intros Hd. apply Nat.le_antisymm; [apply nodup_filter_le|].
  apply NoDup_incl_length; [apply NoDup_nodup|].
  intros x Hx. rewrite nodup_In in *. apply filter_In. split; [exact Hx|].
  unfold not_in. destruct (in_dec string_dec x A) as [Hin|]; [|reflexivity].
  destruct (Hd x Hin Hx).
Qed.

(** [get_playlists_summary] reads the collaborative then the discovery
    playlist; [total_tracks] is the number of tracks of both, and
    [total_unique_artists] is never below the number of distinct artists
    over both playlists: it equals it exactly when no artist occurs in
    both (an artist of both is counted twice). *)
Theorem playlists_summary_unique_artists cfg dbg order s ct s1 dt s2
  (Hc : Store.get_collaborative_tracks cfg dbg s = (Ok ct, s1))
  (Hd : Summary.get_discovery_tracks cfg dbg s1 = (Ok dt, s2)) :
  exists sm,
    Summary.get_playlists_summary cfg dbg order s = (Ok sm, s2) /\
    Summary.total_tracks sm = (List.length ct + List.length dt)%nat /\
    (List.length (nodup string_dec (flat_map artists (ct ++ dt))) <=
     Summary.total_unique_artists sm)%nat /\
    (Summary.total_unique_artists sm =
       List.length (nodup string_dec (flat_map artists (ct ++ dt))) <->
     forall a, In a (flat_map artists ct) -> ~ In a (flat_map artists dt)).
Proof.
  unfold Summary.get_playlists_summary, Summary.get_collaborative_playlist_stats,
    Summary.get_discovery_playlist_stats.
  rewrite Hc, Hd. eexists. split; [reflexivity|].
  unfold Summary.total_tracks, Summary.total_unique_artists.
  cbn [Summary.collaborative Summary.discovery].
  rewrite !unique_artists_count, flat_map_app, nodup_app_length.
  cbn [Stats.from_tracks Stats.total_tracks].
  set (A := flat_map artists ct). set (B := flat_map artists dt).
  pose proof (nodup_filter_le A B).
  split; [reflexivity|]. split; [lia|]. split.
  - intros Heq a Ha Hb. pose proof (nodup_filter_shared A B a Ha Hb). lia.
  - intros Hdis. rewrite (nodup_filter_disjoint A B Hdis). reflexivity.
Qed.

End SummaryExtras.

Section SummaryWitnesses.
Import Examples.

Lemma playlists_summary_unique_artists_witness :
  let s1 := snd (Store.get_collaborative_tracks test_cfg debug_name summary_store) in
  let s2 := snd (Summary.get_discovery_tracks test_cfg debug_name s1) in
  exists sm,
    Summary.get_playlists_summary test_cfg debug_name (fun m => m) summary_store = (Ok sm, s2) /\
    Summary.total_tracks sm = (List.length [tX] + List.length [tY])%nat /\
    (List.length (nodup string_dec (flat_map artists ([tX] ++ [tY]))) <=
     Summary.total_unique_artists sm)%nat /\
    (Summary.total_unique_artists sm =
       List.length (nodup string_dec (flat_map artists ([tX] ++ [tY]))) <->
     forall a, In a (flat_map artists [tX]) -> ~ In a (flat_map artists [tY])).
Proof.
  intros s1 s2.
  apply (playlists_summary_unique_artists test_cfg debug_name (fun m => m) summary_store
           [tX] s1 [tY] s2); vm_compute; reflexivity.
Defined.

End SummaryWitnesses.
